(** * FastLS: a shallow embedding of the path-addressed store

    The development follows the second implementation of the library
    (class [FastLS] with folders, quotas and shortcuts) and, for the nested
    read, also the first one ([index.js]), kept in module [V1].

    Modelling conventions.
    - A JavaScript value is a JSON tree ([value]).  Objects are association
      lists in insertion order without repeated keys; arrays carry their
      elements and, separately, the non-index properties a write such as
      [arr["x"] = v] can attach to them.  A hole of an array is represented by
      [VUndef].  Numbers are the integers a double holds exactly, strings are
      made of the characters of the Latin-1 range.
    - Property access sees own properties only.  The names that the
      prototypes answer to ([constructor], [toString], [__proto__], the
      [length] of arrays and strings, ...) are listed in [object_prototype]
      and the lists next to it; the results say, in their hypotheses, where
      a path, a key or a database name has to stay clear of them.
    - An object lists its keys in insertion order; the keys that are array
      indices, which an engine lists first, are not reordered.
    - Statements that can raise ([x[k]] on [null]/[undefined], an assignment
      to a property of a primitive in strict code, the [throw] of
      [_validatePath]) are written in the [outcome] monad.
    - In-place mutation of the tree is rendered as a functional update: the
      function returns what the mutated object looks like afterwards.
    - Every public method builds a closure [operation], which is what the
      call runs on an instance built with [useAsync]; the embedding of the
      public methods is the body of that closure over the [localStorage]
      backend, with the stored root object as explicit state ([world]).  The
      dispatcher [_executeSync], which an instance built without [useAsync]
      goes through, is not part of the embedding: the results about a call
      that depend on the closure being run assume [useAsync].  A write to
      the backend re-reads the root through the JSON codec
      ([jsonRoundTrip]).
    - [_calculateSize] depends on the codec in use (optional compression), so
      the quota engine takes the size function as a parameter; [jsonSize] is
      the uncompressed instance. *)

From Stdlib Require Import String Ascii List ZArith NArith Bool Lia Permutation.
From Stdlib Require Import DecimalString.
Import ListNotations.
Open Scope string_scope.

(** ** Values and outcomes *)

Set Warnings "-register-all".

Inductive value : Type :=
| VUndef
| VNull
| VBool (b : bool)
| VNum (n : Z)
| VStr (s : string)
| VArr (elems : list value) (named : list (string * value))
| VObj (props : list (string * value)).

Inductive exn : Type :=
| TypeError        (* raised by the engine *)
| PathForbidden    (* 'Path cannot contain ":" or "\\" in key names' *)
| PathDotDot.      (* 'Path cannot be ".."' *)

Inductive outcome (A : Type) : Type :=
| Ret (a : A)
| Throw (e : exn).
Arguments Ret {A} a.
Arguments Throw {A} e.

Definition bind {A B : Type} (m : outcome A) (k : A -> outcome B) : outcome B :=
  match m with
  | Ret a => k a
  | Throw e => Throw e
  end.

Notation "x <- m ;; k" := (bind m (fun x => k))
  (at level 61, m at next level, right associativity).

(** ** Strings *)

Definition backslash : ascii := "\"%char.
Definition sep : string := String backslash "".

(** [toLowerCase] on one character of the Latin-1 range: the letters [A] to
    [Z] and the accented capitals U+00C0 to U+00DE, the sign U+00D7 apart *)
Definition lower_char (c : ascii) : ascii :=
  let n := nat_of_ascii c in
  if ((65 <=? n)%nat && (n <=? 90)%nat)
     || ((192 <=? n)%nat && (n <=? 222)%nat && negb (n =? 215)%nat)
  then ascii_of_nat (n + 32) else c.

Fixpoint toLowerCase (s : string) : string :=
  match s with
  | EmptyString => EmptyString
  | String c s' => String (lower_char c) (toLowerCase s')
  end.

Fixpoint includes (c : ascii) (s : string) : bool :=
  match s with
  | EmptyString => false
  | String d s' => Ascii.eqb c d || includes c s'
  end.

Definition startsWith (s p : string) : bool := String.prefix p s.

(** [s.substring(n)] *)
Fixpoint substring_from (n : nat) (s : string) : string :=
  match n, s with
  | O, _ => s
  | S n', String _ s' => substring_from n' s'
  | S _, EmptyString => EmptyString
  end.

(** [s.split(re)] for a one-character class [re] *)
Fixpoint split_on (p : ascii -> bool) (s : string) : list string :=
  match s with
  | EmptyString => [EmptyString]
  | String c s' =>
      if p c then EmptyString :: split_on p s'
      else match split_on p s' with
           | h :: t => String c h :: t
           | [] => [String c EmptyString]
           end
  end.

Definition join (d : string) (l : list string) : string := String.concat d l.

(** longest prefix of [s] whose characters satisfy [p], and the rest *)
Fixpoint span (p : ascii -> bool) (s : string) : string * string :=
  match s with
  | EmptyString => (EmptyString, EmptyString)
  | String c s' =>
      if p c then let (a, b) := span p s' in (String c a, b)
      else (EmptyString, s)
  end.

Definition is_digit (c : ascii) : bool :=
  let n := nat_of_ascii c in (48 <=? n)%nat && (n <=? 57)%nat.

(** the class [\w] *)
Definition is_word (c : ascii) : bool :=
  let n := nat_of_ascii c in
  is_digit c || ((65 <=? n)%nat && (n <=? 90)%nat)
  || ((97 <=? n)%nat && (n <=? 122)%nat) || (n =? 95)%nat.

(** [parseInt] on a string of decimal digits *)
Fixpoint parseInt_acc (acc : nat) (s : string) : nat :=
  match s with
  | EmptyString => acc
  | String c s' => parseInt_acc (10 * acc + (nat_of_ascii c - 48)) s'
  end.

Definition parseInt (s : string) : nat := parseInt_acc 0 s.

Definition string_of_nat (n : nat) : string :=
  NilEmpty.string_of_uint (N.to_uint (N.of_nat n)).

(** A property key that is an array index: a canonical decimal numeral below
    2^32 - 1. *)
Definition array_index (k : string) : option nat :=
  match NilEmpty.uint_of_string k with
  | Some d =>
      let n := N.of_uint d in
      if String.eqb (NilEmpty.string_of_uint (N.to_uint n)) k
         && (n <? 4294967295)%N
      then Some (N.to_nat n) else None
  | None => None
  end.

(** ** Primitive operations on values *)

Definition truthy (v : value) : bool :=
  match v with
  | VUndef | VNull => false
  | VBool b => b
  | VNum n => negb (n =? 0)%Z
  | VStr s => negb (String.eqb s "")
  | VArr _ _ | VObj _ => true
  end.

(** [v !== null && v !== undefined && typeof v === 'object'] *)
Definition is_object (v : value) : bool :=
  match v with
  | VArr _ _ | VObj _ => true
  | _ => false
  end.

Definition isArray (v : value) : bool :=
  match v with
  | VArr _ _ => true
  | _ => false
  end.

Definition is_undefined (v : value) : bool :=
  match v with
  | VUndef => true
  | _ => false
  end.

Fixpoint lookup (ps : list (string * value)) (k : string) : value :=
  match ps with
  | [] => VUndef
  | (k', v) :: ps' => if String.eqb k' k then v else lookup ps' k
  end.

(** [o[k] = v] on the property list of an object: overwrite in place, or
    append a new property. *)
Fixpoint upsert (ps : list (string * value)) (k : string) (v : value)
  : list (string * value) :=
  match ps with
  | [] => [(k, v)]
  | (k', v') :: ps' =>
      if String.eqb k' k then (k, v) :: ps' else (k', v') :: upsert ps' k v
  end.

Fixpoint replace_nth (i : nat) (l : list value) (v : value) : list value :=
  match i, l with
  | O, _ :: l' => v :: l'
  | S i', x :: l' => x :: replace_nth i' l' v
  | _, [] => []
  end.

(** [while (a.length <= index) a.push(filler)] *)
Definition pad (es : list value) (index : nat) (filler : value) : list value :=
  es ++ repeat filler (S index - length es).

(** [a[i] = v] on the elements of an array *)
Definition store_elem (es : list value) (i : nat) (v : value) : list value :=
  replace_nth i (pad es i VUndef) v.

Fixpoint chars (s : string) : list value :=
  match s with
  | EmptyString => []
  | String c s' => VStr (String c EmptyString) :: chars s'
  end.

(** [recv[k]] *)
Definition prop_read (recv : value) (k : string) : outcome value :=
  match recv with
  | VUndef | VNull => Throw TypeError
  | VBool _ | VNum _ => Ret VUndef
  | VStr s =>
      match array_index k with
      | Some i => Ret (nth i (chars s) VUndef)
      | None => Ret VUndef
      end
  | VArr es nm =>
      match array_index k with
      | Some i => Ret (nth i es VUndef)
      | None => Ret (lookup nm k)
      end
  | VObj ps => Ret (lookup ps k)
  end.

(** [recv[k] = v] in strict code; the result is the receiver afterwards. *)
Definition prop_write (recv : value) (k : string) (v : value) : outcome value :=
  match recv with
  | VArr es nm =>
      match array_index k with
      | Some i => Ret (VArr (store_elem es i v) nm)
      | None => Ret (VArr es (upsert nm k v))
      end
  | VObj ps => Ret (VObj (upsert ps k v))
  | _ => Throw TypeError
  end.

Fixpoint indexed_from (i : nat) (es : list value) : list (string * value) :=
  match es with
  | [] => []
  | e :: es' => (string_of_nat i, e) :: indexed_from (S i) es'
  end.

(** own enumerable string-keyed properties of a non-nullish value *)
Definition own_entries (v : value) : list (string * value) :=
  match v with
  | VObj ps => ps
  | VArr es nm => indexed_from 0 es ++ nm
  | VStr s => indexed_from 0 (chars s)
  | _ => []
  end.

(** [Object.entries(v)] *)
Definition object_entries (v : value) : outcome (list (string * value)) :=
  match v with
  | VUndef | VNull => Throw TypeError
  | _ => Ret (own_entries v)
  end.

(** [Object.keys(v)] *)
Definition object_keys (v : value) : outcome (list string) :=
  es <- object_entries v ;; Ret (map fst es).

(** [keys.find(k => k.toLowerCase() === key.toLowerCase())] *)
Definition find_key (keys : list string) (key : string) : option string :=
  find (fun k => String.eqb (toLowerCase k) (toLowerCase key)) keys.

(** ** The JSON codec: [_serializeData] and [_deserializeData] *)

Definition dquote : ascii := ascii_of_nat 34.

Definition hex_digit (n : nat) : ascii :=
  if (n <? 10)%nat then ascii_of_nat (48 + n) else ascii_of_nat (87 + n).

(** the escape [JSON.stringify] emits for one character *)
Definition escape_char (c : ascii) : string :=
  let n := nat_of_ascii c in
  if (n =? 34)%nat then String backslash (String dquote "")
  else if (n =? 92)%nat then String backslash (String backslash "")
  else if (n =? 8)%nat then String backslash "b"
  else if (n =? 9)%nat then String backslash "t"
  else if (n =? 10)%nat then String backslash "n"
  else if (n =? 12)%nat then String backslash "f"
  else if (n =? 13)%nat then String backslash "r"
  else if (n <? 32)%nat then
    String backslash
      ("u00" ++ String (hex_digit (n / 16)) (String (hex_digit (n mod 16)) ""))
  else String c "".

Fixpoint escape (s : string) : string :=
  match s with
  | EmptyString => EmptyString
  | String c s' => escape_char c ++ escape s'
  end.

Definition quote (s : string) : string :=
  String dquote (escape s ++ String dquote "").

Definition string_of_Z (n : Z) : string := NilZero.string_of_int (Z.to_int n).

(** [JSON.stringify(v, replacer)]: the replacer of [_serializeData] only
    rewrites functions, which a JSON tree does not contain.  [None] stands
    for the result [undefined]. *)
Fixpoint stringify (v : value) : option string :=
  match v with
  | VUndef => None
  | VNull => Some "null"
  | VBool true => Some "true"
  | VBool false => Some "false"
  | VNum n => Some (string_of_Z n)
  | VStr s => Some (quote s)
  | VArr es _ =>
      Some ("[" ++ join ","
              (map (fun e => match stringify e with
                             | Some t => t
                             | None => "null"
                             end) es) ++ "]")
  | VObj ps =>
      Some ("{" ++ join ","
              (flat_map (fun kv => match stringify (snd kv) with
                                   | Some t => [quote (fst kv) ++ ":" ++ t]
                                   | None => []
                                   end) ps) ++ "}")
  end.

(** the number of bytes of the UTF-8 encoding of a text *)
Fixpoint utf8_length (s : string) : nat :=
  match s with
  | EmptyString => 0
  | String c s' =>
      (if (nat_of_ascii c <? 128)%nat then 1 else 2) + utf8_length s'
  end.

(** [new Blob([_serializeData(data)]).size] without compression *)
Definition jsonSize (v : value) : Z :=
  match stringify v with
  | Some t => Z.of_nat (utf8_length t)
  | None => 9 (* the part [undefined] is written out as text *)
  end.

(** the reviver of [_deserializeData], at one node *)
Definition revive (v : value) : value :=
  match v with
  | VObj ps =>
      let f := lookup ps "__fastls_exception_function" in
      if truthy f then VObj [("__fastls_function", f)] else v
  | _ => v
  end.

(** [_deserializeData(_serializeData(v))]; for [undefined] nothing is
    written and [_deserializeData] answers [{}] *)
Fixpoint jsonRoundTrip (v : value) : value :=
  match v with
  | VUndef => VObj []
  | VArr es _ =>
      VArr (map (fun e => if is_undefined e then VNull
                          else jsonRoundTrip e) es) []
  | VObj ps =>
      revive (VObj (flat_map (fun kv =>
                              if is_undefined (snd kv) then []
                              else [(fst kv, jsonRoundTrip (snd kv))]) ps))
  | _ => v
  end.

(** ** Paths *)

Definition is_colon (c : ascii) : bool := Ascii.eqb c ":"%char.
Definition is_separator (c : ascii) : bool :=
  Ascii.eqb c backslash || Ascii.eqb c "/"%char.
Definition is_line_terminator (c : ascii) : bool :=
  (nat_of_ascii c =? 10)%nat || (nat_of_ascii c =? 13)%nat.

Fixpoint existsb_char (p : ascii -> bool) (s : string) : bool :=
  match s with
  | EmptyString => false
  | String c s' => p c || existsb_char p s'
  end.

(** the match of [/^([^:]+):/]: the text before the first colon, when it is
    not empty, and the text after that colon *)
Definition colon_prefix (s : string) : option (string * string) :=
  match span (fun c => negb (is_colon c)) s with
  | (EmptyString, _) => None
  | (name, String _ rest) => Some (name, rest)
  | (_, EmptyString) => None
  end.

(** [path.replace(/^[^:]+:/, '')] *)
Definition strip_flag (path : string) : string :=
  match colon_prefix path with
  | Some (_, rest) => rest
  | None => path
  end.

(** the loop of [_normalizePath] over the tokens, [normalized] being the
    stack, last segment first *)
Fixpoint normalize_parts (parts : list string) (normalized : list string)
  : list string :=
  match parts with
  | [] => rev normalized
  | part :: parts' =>
      if String.eqb part ".." then normalize_parts parts' (tl normalized)
      else if String.eqb part "" || String.eqb part "."
           then normalize_parts parts' normalized
           else normalize_parts parts' (part :: normalized)
  end.

Definition _normalizePath (path : string) : string :=
  if String.eqb path "" then ""
  else join sep (normalize_parts (split_on is_separator (strip_flag path)) []).

Definition _validatePath (path : string) : outcome unit :=
  if negb (String.eqb path "")
     && (includes ":"%char path || includes backslash path)
  then Throw PathForbidden
  else if String.eqb path ".." then Throw PathDotDot
  else Ret tt.

(** [_parseFullPath]; the second group of its regular expression is made of
    dots up to the end of the input, so the text after the first colon has to
    be free of line terminators for the match to succeed. *)
Definition _parseFullPath (fullPath : value) : option string * string :=
  match fullPath with
  | VStr s =>
      match colon_prefix s with
      | Some (name, rest) =>
          if existsb_char is_line_terminator rest
          then (None, _normalizePath s)
          else (Some name, _normalizePath rest)
      | None => (None, _normalizePath s)
      end
  | _ => (None, "")
  end.

(** one attempt of [/(\w+)\[(\d+)\]/] at the start of [s] *)
Definition array_match_here (s : string) : option (string * string) :=
  match span is_word s with
  | (EmptyString, _) => None
  | (name, String c rest) =>
      if Ascii.eqb c "["%char then
        match span is_digit rest with
        | (EmptyString, _) => None
        | (digits, String c' _) =>
            if Ascii.eqb c' "]"%char then Some (name, digits) else None
        | (_, EmptyString) => None
        end
      else None
  | (_, EmptyString) => None
  end.

(** [key.match(/(\w+)\[(\d+)\]/)]: the leftmost match, as the pair of its two
    groups *)
Fixpoint arrayMatch (key : string) : option (string * string) :=
  match key with
  | EmptyString => None
  | String _ key' =>
      match array_match_here key with
      | Some r => Some r
      | None => arrayMatch key'
      end
  end.

(** ** The nested value accessor *)

Definition is_dot (c : ascii) : bool := Ascii.eqb c "."%char.

(** [typeof v === 'object'], which also holds of [null] *)
Definition typeof_object (v : value) : bool :=
  match v with
  | VNull | VArr _ _ | VObj _ => true
  | _ => false
  end.

Definition array_parts (a : value) : list value * list (string * value) :=
  match a with
  | VArr es nm => (es, nm)
  | _ => ([], [])
  end.

(** the body of the loop of [_getValueByPath], before the test for
    [undefined] *)
Definition get_step (caseSen : bool) (current : value) (key : string)
  : outcome value :=
  match arrayMatch key with
  | Some (arrayName, digits) =>
      a <- prop_read current arrayName ;;
      if truthy a && isArray a
      then Ret (nth (parseInt digits) (fst (array_parts a)) VUndef)
      else Ret VUndef
  | None =>
      if negb caseSen && typeof_object current then
        keys <- object_keys current ;;
        match find_key keys key with
        | Some foundKey =>
            if truthy (VStr foundKey) then prop_read current foundKey
            else Ret VUndef
        | None => Ret VUndef
        end
      else prop_read current key
  end.

Fixpoint get_loop (caseSen : bool) (current : value) (keys : list string)
  : outcome value :=
  match keys with
  | [] => Ret current
  | key :: keys' =>
      if negb (is_object current) then Ret VUndef
      else
        next <- get_step caseSen current key ;;
        if is_undefined next then Ret VUndef
        else get_loop caseSen next keys'
  end.

Definition _getValueByPath (caseSen : bool) (obj : value) (path : string)
  : outcome value :=
  if String.eqb path "" || negb (truthy obj) then Ret obj
  else get_loop caseSen obj (split_on is_dot path).

(** the key a plain segment is read or written under *)
Definition actual_key (caseSen : bool) (current : value) (key : string)
  : outcome string :=
  if negb caseSen && typeof_object current then
    keys <- object_keys current ;;
    match find_key keys key with
    | Some foundKey => Ret (if truthy (VStr foundKey) then foundKey else key)
    | None => Ret key
    end
  else Ret key.

(** [if (!current[arrayName] || !Array.isArray(current[arrayName]))
    current[arrayName] = [];] giving the receiver and the array found or
    created *)
Definition ensure_array (current : value) (arrayName : string)
  : outcome (value * value) :=
  a <- prop_read current arrayName ;;
  if truthy a && isArray a then Ret (current, a)
  else
    current' <- prop_write current arrayName (VArr [] []) ;;
    Ret (current', VArr [] []).

(** the statements of [_setValueByPath] after its loop *)
Definition set_last (caseSen : bool) (current : value) (lastKey : string)
  (v : value) : outcome value :=
  match arrayMatch lastKey with
  | Some (arrayName, digits) =>
      let index := parseInt digits in
      ca <- ensure_array current arrayName ;;
      let (es, nm) := array_parts (snd ca) in
      prop_write (fst ca) arrayName
        (VArr (replace_nth index (pad es index VUndef) v) nm)
  | None =>
      actualKey <- actual_key caseSen current lastKey ;;
      prop_write current actualKey v
  end.

(** The loop of [_setValueByPath] followed by the final assignment.  The
    source walks down with [current = current[k]] and mutates in place; here
    each level returns its receiver with the updated child stored back. *)
Fixpoint set_loop (caseSen : bool) (current : value) (keys : list string)
  (v : value) {struct keys} : outcome value :=
  match keys with
  | [] => Ret current
  | key :: keys' =>
      match keys' with
      | [] => set_last caseSen current key v
      | _ :: _ =>
          match arrayMatch key with
          | Some (arrayName, digits) =>
              let index := parseInt digits in
              ca <- ensure_array current arrayName ;;
              let (es, nm) := array_parts (snd ca) in
              let es' := pad es index (VObj []) in
              child <- set_loop caseSen (nth index es' VUndef) keys' v ;;
              prop_write (fst ca) arrayName
                (VArr (replace_nth index es' child) nm)
          | None =>
              actualKey <- actual_key caseSen current key ;;
              c <- prop_read current actualKey ;;
              current' <- (if is_object c then Ret current
                           else prop_write current actualKey (VObj [])) ;;
              child <- set_loop caseSen (if is_object c then c else VObj [])
                         keys' v ;;
              prop_write current' actualKey child
          end
      end
  end.

Definition _setValueByPath (caseSen : bool) (obj : value) (path : string)
  (v : value) : outcome value :=
  if String.eqb path "" then Ret v
  else
    r <- set_loop caseSen (if truthy obj then obj else VObj [])
           (split_on is_dot path) v ;;
    Ret (if truthy obj then r else obj).

(** *** The accessor of [index.js] *)

Module V1.

Definition _parsePath (path : string) : list string :=
  flat_map (fun part => match arrayMatch part with
                        | Some (name, digits) => [name; digits]
                        | None => [part]
                        end)
           (split_on is_dot path).

Fixpoint get_loop (current : value) (keys : list string) : outcome value :=
  match keys with
  | [] => Ret current
  | key :: keys' =>
      if negb (is_object current) then Ret VUndef
      else next <- prop_read current key ;; get_loop next keys'
  end.

Definition _getValueByPath (obj : value) (path : string) : outcome value :=
  if String.eqb path "" then Ret obj else get_loop obj (_parsePath path).

End V1.

(** ** The folder deletion engine *)

Definition props := list (string * value).

(** [key.startsWith(folderPath + '\\')] *)
Definition under (key folderPath : string) : bool :=
  startsWith key (folderPath ++ sep).

(** [key.substring(folderPath.length + 1).includes('\\')] *)
Definition deeper (key folderPath : string) : bool :=
  includes backslash (substring_from (String.length folderPath + 1) key).

(** [for (const [key, value] of Object.entries(db)) if (keep) newDB[key] =
    change(value)] starting from [newDB = {}] *)
Definition rebuild (keep : string -> bool) (change : string -> value -> value)
  (db : props) : props :=
  fold_left (fun newDB kv =>
               if keep (fst kv) then upsert newDB (fst kv) (change (fst kv) (snd kv))
               else newDB)
            db [].

Definition _deleteFolder (db : props) (folderPath : string) : props :=
  rebuild (fun key => negb (under key folderPath)
                      && negb (String.eqb key folderPath))
          (fun _ v => v) db.

Definition _deleteRootKeys (db : props) (folderPath : string) : props :=
  rebuild (fun key => negb (under key folderPath)
                      || (under key folderPath && negb (deeper key folderPath)))
          (fun _ v => v) db.

Definition _deleteFolderContents (db : props) (folderPath : string) : props :=
  rebuild (fun _ => true)
          (fun key v => if under key folderPath || String.eqb key folderPath
                        then VObj [] else v)
          db.

Definition _deleteNestedFolders (db : props) (folderPath : string) : props :=
  rebuild (fun key => negb (under key folderPath)
                      || (under key folderPath && negb (deeper key folderPath)))
          (fun _ v => v) db.

Inductive removal : Type :=
| Dropped                      (* the database itself was deleted *)
| Updated (updatedDB : props). (* the map handed to [_saveDatabase] *)

(** One strategy of [remove] applied to the in-memory copy; an unknown
    strategy is reported and leaves the copy as it is. *)
Definition apply_strategy (updatedDB : props) (normalizedPath operation : string)
  : props :=
  if String.eqb operation "folder" then _deleteFolder updatedDB normalizedPath
  else if String.eqb operation "root"
       then _deleteRootKeys updatedDB normalizedPath
  else if String.eqb operation "structure"
       then _deleteFolderContents updatedDB normalizedPath
  else if String.eqb operation "nestedFolders"
       then _deleteNestedFolders updatedDB normalizedPath
  else updatedDB.

(** The loop of [remove] over its (path, strategy) pairs; [None] is the path
    [null]. *)
Fixpoint remove_loop (updatedDB : props)
  (operations : list (option string * string)) : removal :=
  match operations with
  | [] => Updated updatedDB
  | (path, operation) :: rest =>
      match path with
      | None =>
          if String.eqb operation "database" then Dropped
          else if String.eqb operation "databaseKeys" then remove_loop [] rest
          else remove_loop (apply_strategy updatedDB "" operation) rest
      | Some p =>
          if (String.eqb p "" || String.eqb p sep)
             && String.eqb operation "databaseKeys"
          then remove_loop [] rest
          else remove_loop
                 (apply_strategy updatedDB (_normalizePath p) operation) rest
      end
  end.

(** ** The instance and the backend *)

Inductive QuotaMessage : Type := storedNull | cannotSave | meet.

Record QuotaCheck : Type := { allowed : bool; storeNull : bool }.

Record FastLS : Type := {
  dbName : string;
  gzipped : bool;
  caseSen : bool;
  useAsync : bool;
  quota : option Z;
  folderQuotas : list (string * Z);   (* a [Map], in insertion order *)
  quotaMessage : option QuotaMessage
}.

Definition with_quotaMessage (this : FastLS) (m : option QuotaMessage) : FastLS :=
  {| dbName := dbName this; gzipped := gzipped this; caseSen := caseSen this;
     useAsync := useAsync this; quota := quota this;
     folderQuotas := folderQuotas this; quotaMessage := m |}.

(** [Map.prototype.set] *)
Fixpoint map_set (m : list (string * Z)) (k : string) (b : Z)
  : list (string * Z) :=
  match m with
  | [] => [(k, b)]
  | (k', b') :: m' =>
      if String.eqb k' k then (k', b) :: m' else (k', b') :: map_set m' k b
  end.

Definition setQuota (this : FastLS) (bytes : Z) : FastLS :=
  {| dbName := dbName this; gzipped := gzipped this; caseSen := caseSen this;
     useAsync := useAsync this; quota := Some bytes;
     folderQuotas := folderQuotas this; quotaMessage := None |}.

Definition setFolderQuota (this : FastLS) (folderPath : string) (bytes : Z)
  : FastLS :=
  {| dbName := dbName this; gzipped := gzipped this; caseSen := caseSen this;
     useAsync := useAsync this; quota := quota this;
     folderQuotas := map_set (folderQuotas this) (_normalizePath folderPath) bytes;
     quotaMessage := None |}.

(** The root object kept under the key ['fastLS'] of [localStorage], as
    [_getRoot] reads it: database name to database. *)
Definition world := props.

(** [_saveRoot]: the root is written as text and read back by the next
    [_getRoot]; the storage is assumed to accept the text. *)
Definition _saveRoot (root : props) : world :=
  own_entries (jsonRoundTrip (VObj root)).

(** [root[this.dbName] || {}] *)
Definition _getDatabase (this : FastLS) (w : world) : value :=
  let d := lookup w (dbName this) in
  if truthy d then d else VObj [].

Definition _saveDatabase (this : FastLS) (db : value) (w : world) : world :=
  _saveRoot (upsert w (dbName this) db).

(** [new FastLS(name, gzipped, caseSen, useAsync)] for a name without a
    backend prefix: [_initLocalStorage] registers the database when the root
    has no truthy entry for it. *)
Definition new_FastLS (name : string) (gz cs ua : bool) (w : world)
  : FastLS * world :=
  ({| dbName := name; gzipped := gz; caseSen := cs; useAsync := ua;
      quota := None; folderQuotas := []; quotaMessage := None |},
   if truthy (lookup w name) then w else _saveRoot (upsert w name (VObj []))).

(** [targetDB]: the instance itself, or a fresh one for a database prefix
    that names another database *)
Definition target_of (this : FastLS) (name : option string) (w : world)
  : FastLS * world :=
  match name with
  | Some d =>
      if negb (String.eqb d "") && negb (String.eqb d (dbName this))
      then new_FastLS d (gzipped this) (caseSen this) (useAsync this) w
      else (this, w)
  | None => (this, w)
  end.

(** ** The quota manager *)

Section Quota.

Variable calculateSize : value -> Z.

(** [path.startsWith(folderPath + '\\') || path === folderPath] *)
Definition in_folder (path folderPath : string) : bool :=
  under path folderPath || String.eqb path folderPath.

Definition _calculateFolderSize (db : value) (folderPath : string) : outcome Z :=
  entries <- object_entries db ;;
  Ret (fold_left (fun totalSize kv =>
                    if in_folder (fst kv) folderPath
                    then (totalSize + calculateSize (snd kv))%Z
                    else totalSize)
                 entries 0%Z).

(** [db[path] ? this._calculateSize(db[path]) : 0] *)
Definition currentPathSize (db : value) (path : string) : outcome Z :=
  cur <- prop_read db path ;;
  Ret (if truthy cur then calculateSize cur else 0%Z).

Definition store_null : option QuotaMessage * QuotaCheck :=
  (Some storedNull, {| allowed := true; storeNull := true |}).
Definition reject : option QuotaMessage * QuotaCheck :=
  (Some cannotSave, {| allowed := false; storeNull := false |}).

(** The loop over the folder quotas.  Only the first folder the path falls
    under is examined; [Some r] is a [return] from inside the loop, [None]
    means the loop ended (by [break] or without a match). *)
Definition check_folder (fqs : list (string * Z)) (db : value) (path : string)
  (v : value) : outcome (option (option QuotaMessage * QuotaCheck)) :=
  match find (fun fq => in_folder path (fst fq)) fqs with
  | Some (folderPath, q) =>
      currentFolderSize <- _calculateFolderSize db folderPath ;;
      let newValueSize := calculateSize v in
      cps <- currentPathSize db path ;;
      let projectedSize := (currentFolderSize - cps + newValueSize)%Z in
      if (q <? projectedSize)%Z then
        if (newValueSize <=? q)%Z then Ret (Some store_null)
        else Ret (Some reject)
      else Ret None
  | None => Ret None
  end.

(** The global stage. *)
Definition check_global (q : option Z) (db : value) (path : string) (v : value)
  : outcome (option QuotaMessage * QuotaCheck) :=
  match q with
  | Some q =>
      let currentSize := calculateSize db in
      let newValueSize := calculateSize v in
      cps <- currentPathSize db path ;;
      let projectedSize := (currentSize - cps + newValueSize)%Z in
      if (q <? projectedSize)%Z then
        if (newValueSize <=? q)%Z then Ret store_null else Ret reject
      else if (projectedSize =? q)%Z
           then Ret (Some meet, {| allowed := true; storeNull := false |})
           else Ret (None, {| allowed := true; storeNull := false |})
  | None => Ret (None, {| allowed := true; storeNull := false |})
  end.

(** [_checkQuotaBeforeSet]: the value of [this.quotaMessage] it leaves and the
    object it returns. *)
Definition _checkQuotaBeforeSet (this : FastLS) (db : value) (path : string)
  (v : value) : outcome (option QuotaMessage * QuotaCheck) :=
  r <- check_folder (folderQuotas this) db path v ;;
  match r with
  | Some decided => Ret decided
  | None => check_global (quota this) db path v
  end.

(** ** The public operations *)

Inductive set_result : Type :=
| SetThrew (e : exn)            (* the [catch]: [error.message] is returned *)
| SetRejected (qc : QuotaCheck) (* [return quotaCheck] *)
| SetSaved (qc : QuotaCheck) (message : option QuotaMessage).

(** The closure of [set]: its result, the instance and the stored root
    afterwards. *)
Definition set (this : FastLS) (w : world) (fullPath : value) (v : value)
  : set_result * FastLS * world :=
  let (name, path) := _parseFullPath fullPath in
  match (if String.eqb path "" then Ret tt else _validatePath path) with
  | Throw e => (SetThrew e, this, w)
  | Ret _ =>
      let (targetDB, w1) := target_of this name w in
      let db := _getDatabase targetDB w1 in
      match _checkQuotaBeforeSet this db path v with
      | Throw e => (SetThrew e, with_quotaMessage this None, w1)
      | Ret (message, quotaCheck) =>
          let this' := with_quotaMessage this message in
          if negb (allowed quotaCheck) then (SetRejected quotaCheck, this', w1)
          else
            let valueToStore := if storeNull quotaCheck then VNull else v in
            match _setValueByPath (caseSen this) db path valueToStore with
            | Throw e => (SetThrew e, this', w1)
            | Ret updatedDB =>
                (SetSaved quotaCheck message, this',
                 _saveDatabase targetDB updatedDB w1)
            end
      end
  end.

Definition shortcut_key : string := "__fastls_exception_shortcut".

Definition setShortcut (this : FastLS) (w : world)
  (shortcutName targetPath : value) : set_result * FastLS * world :=
  set this w shortcutName (VObj [(shortcut_key, targetPath)]).

End Quota.

(** The closure of [get].  A shortcut makes it call [get] again on the
    target, so the embedding is by fuel: [None] means that the chain of calls
    is longer than [fuel].  An exception is caught and gives [undefined]. *)
Fixpoint get (fuel : nat) (this : FastLS) (w : world) (fullPath : value)
  : option (value * world) :=
  match fuel with
  | O => None
  | S fuel' =>
      let (name, path) := _parseFullPath fullPath in
      let (targetDB, w1) := target_of this name w in
      let db := _getDatabase targetDB w1 in
      match prop_read db path with
      | Throw _ => Some (VUndef, w1)
      | Ret directValue =>
          match (if truthy directValue then prop_read directValue shortcut_key
                 else Ret VUndef) with
          | Throw _ => Some (VUndef, w1)
          | Ret target =>
              if truthy directValue && truthy target
              then get fuel' targetDB w1 target
              else match _getValueByPath (caseSen this) db path with
                   | Ret r => Some (r, w1)
                   | Throw _ => Some (VUndef, w1)
                   end
          end
      end
  end.

(** The closure of [keys]: [Object.keys(db)] *)
Definition keys (this : FastLS) (w : world) : outcome (list string) :=
  object_keys (_getDatabase this w).

(** The closure of [remove] *)
Definition remove (this : FastLS) (w : world)
  (operations : list (option string * string)) : world :=
  match remove_loop (own_entries (_getDatabase this w)) operations with
  | Dropped => _saveRoot (filter (fun kv => negb (String.eqb (fst kv) (dbName this))) w)
  | Updated updatedDB => _saveDatabase this (VObj updatedDB) w
  end.

(** ** Concrete data used by the examples *)

(** the key set [{a, a\b, a\b\c, a\d}] *)
Definition folder_keys : list string :=
  ["a"; "a" ++ sep ++ "b"; "a" ++ sep ++ "b" ++ sep ++ "c"; "a" ++ sep ++ "d"].

Definition four_keys_db : props :=
  [("a", VNum 1); ("a" ++ sep ++ "b", VNum 2);
   ("a" ++ sep ++ "b" ++ sep ++ "c", VNum 3); ("a" ++ sep ++ "d", VNum 4)].

(** an instance bound to the database [main], without quotas *)
Definition main_db : FastLS :=
  {| dbName := "main"; gzipped := false; caseSen := true; useAsync := true;
     quota := None; folderQuotas := []; quotaMessage := None |}.


(** the stored root once an instance for [main] was constructed on an empty
    storage *)
Definition fresh_world : world := [("main", VObj [])].

Definition shortcut_to (target : string) : value :=
  VObj [(shortcut_key, VStr target)].

(** the stored root after [setShortcut("x", "y")] and [setShortcut("y", "x")] *)
Definition cyclic_world : world :=
  [("main", VObj [("x", shortcut_to "y"); ("y", shortcut_to "x")])].

(** a candidate whose encoding takes ten bytes *)
Definition ten_bytes : value := VStr "12345678".

(** ** Notions used to state the properties *)

(** the closed form of [rebuild] on a map with distinct keys *)
Definition rebuilt (keep : string -> bool) (change : string -> value -> value)
  (db : props) : props :=
  map (fun kv => (fst kv, change (fst kv) (snd kv)))
      (filter (fun kv => keep (fst kv)) db).


(** [db[path]] is a shortcut whose target is [target] *)
Definition shortcut_at (db : value) (path : string) (target : value) : Prop :=
  exists directValue,
    prop_read db path = Ret directValue /\ truthy directValue = true
    /\ prop_read directValue shortcut_key = Ret target /\ truthy target = true.

(** [fullPath] addresses [path] in the database of [this] *)
Definition local_path (this : FastLS) (fullPath : value) (path : string) : Prop :=
  snd (_parseFullPath fullPath) = path
  /\ (fst (_parseFullPath fullPath) = None
      \/ fst (_parseFullPath fullPath) = Some (dbName this)).

(** every path of [chain] holds a shortcut to a path of [chain]: the chain
    runs into a cycle *)
Definition closed_chain (this : FastLS) (w : world) (chain : list value) : Prop :=
  forall fullPath, In fullPath chain ->
    exists path target,
      local_path this fullPath path
      /\ shortcut_at (_getDatabase this w) path target
      /\ In target chain.

(** One call of [get] finds a shortcut: the instance and the storage the
    target is looked up with, and the target. *)
Definition follows (this : FastLS) (w : world) (fullPath : value)
  (targetDB : FastLS) (w1 : world) (target : value) : Prop :=
  target_of this (fst (_parseFullPath fullPath)) w = (targetDB, w1)
  /\ shortcut_at (_getDatabase targetDB w1) (snd (_parseFullPath fullPath))
       target.

(** A set of calls of [get] that following never leaves: whatever the
    databases the shortcuts name, each call finds a shortcut whose target is
    again a call of the set. *)
Definition closed_calls (calls : FastLS -> world -> value -> Prop) : Prop :=
  forall this w fullPath, calls this w fullPath ->
    exists targetDB w1 target,
      follows this w fullPath targetDB w1 target /\ calls targetDB w1 target.

(** an instance bound to the database [other] *)
Definition other_db : FastLS :=
  {| dbName := "other"; gzipped := false; caseSen := true; useAsync := true;
     quota := None; folderQuotas := []; quotaMessage := None |}.

(** [x] of [main] points to [y] of [other], which points back *)
Definition crossed_world : world :=
  [("main", VObj [("x", shortcut_to "other:y")]);
   ("other", VObj [("y", shortcut_to "main:x")])].

Inductive crossed_calls : FastLS -> world -> value -> Prop :=
| crossed_start : crossed_calls main_db crossed_world (VStr "x")
| crossed_over : crossed_calls main_db crossed_world (VStr "other:y")
| crossed_back : crossed_calls other_db crossed_world (VStr "main:x").

Definition removeQuota (this : FastLS) : FastLS :=
  {| dbName := dbName this; gzipped := gzipped this; caseSen := caseSen this;
     useAsync := useAsync this; quota := None;
     folderQuotas := folderQuotas this; quotaMessage := None |}.


(** the marker of the codec for an encoded function; a database of that
    name would be taken for one when the root is read back *)
Definition reserved_name : string := "__fastls_exception_function".

Definition pass : QuotaCheck := {| allowed := true; storeNull := false |}.

(** a folder budget of ten bytes on [a], no global budget *)
Definition folder_only : FastLS := setFolderQuota main_db "a" 10.

(** a folder budget of a hundred bytes on [a] under a global budget of five *)
Definition folder_and_global : FastLS :=
  setQuota (setFolderQuota main_db "a" 100) 5.


Definition small_world : world := [("main", VObj [("k", VStr "abcdef")])].


(** an array whose first element is [null] *)
Definition null_item : value := VObj [("items", VArr [VNull] [])].

(** ** The remaining operations *)

(** [Map.prototype.delete] *)
Fixpoint map_delete (m : list (string * Z)) (k : string) : list (string * Z) :=
  match m with
  | [] => []
  | (k', b) :: m' =>
      if String.eqb k' k then m' else (k', b) :: map_delete m' k
  end.

Definition removeFolderQuota (this : FastLS) (folderPath : string) : FastLS :=
  {| dbName := dbName this; gzipped := gzipped this; caseSen := caseSen this;
     useAsync := useAsync this; quota := quota this;
     folderQuotas := map_delete (folderQuotas this) (_normalizePath folderPath);
     quotaMessage := None |}.

(** [recv] has an own property [k]; an element [VUndef] of an array counts as
    a hole *)
Definition has_own (recv : value) (k : string) : bool :=
  match recv with
  | VObj ps => existsb (fun kv => String.eqb (fst kv) k) ps
  | VArr es nm =>
      match array_index k with
      | Some i => (i <? length es)%nat && negb (is_undefined (nth i es VUndef))
      | None => existsb (fun kv => String.eqb (fst kv) k) nm
      end
  | VStr s =>
      match array_index k with
      | Some i => (i <? String.length s)%nat
      | None => false
      end
  | _ => false
  end.

(** [recv.hasOwnProperty(k)]: an own property of that name hides the method,
    and no value of a JSON tree can be called. *)
Definition call_hasOwnProperty (recv : value) (k : string) : outcome bool :=
  match recv with
  | VUndef | VNull => Throw TypeError
  | _ => if has_own recv "hasOwnProperty" then Throw TypeError
         else Ret (has_own recv k)
  end.

(** [delete recv[k]] in strict code; the result is the receiver afterwards. *)
Definition prop_delete (recv : value) (k : string) : outcome value :=
  match recv with
  | VUndef | VNull => Throw TypeError
  | VObj ps => Ret (VObj (filter (fun kv => negb (String.eqb (fst kv) k)) ps))
  | VArr es nm =>
      match array_index k with
      | Some i => Ret (VArr (replace_nth i es VUndef) nm)
      | None =>
          Ret (VArr es (filter (fun kv => negb (String.eqb (fst kv) k)) nm))
      end
  | VStr s =>
      match array_index k with
      | Some i => if (i <? String.length s)%nat then Throw TypeError else Ret recv
      | None => Ret recv
      end
  | _ => Ret recv
  end.

(** *** Members answered by the prototype chain

    The names below are those of the standard library (ECMAScript 2024 with
    its Annex B): a read [recv[k]] of the source that finds no own property
    of that name is answered by the member of the prototype, and an
    assignment to [__proto__] or to the [length] of an array does not create
    a property.  The embedding of [recv[k]] stops at the own properties, so
    the properties proved below say where these names are kept out. *)

Definition object_prototype : list string :=
  ["constructor"; "__defineGetter__"; "__defineSetter__"; "hasOwnProperty";
   "__lookupGetter__"; "__lookupSetter__"; "isPrototypeOf";
   "propertyIsEnumerable"; "toString"; "valueOf"; "__proto__";
   "toLocaleString"].

Definition array_prototype : list string :=
  ["length"; "constructor"; "at"; "concat"; "copyWithin"; "fill"; "find";
   "findIndex"; "findLast"; "findLastIndex"; "lastIndexOf"; "pop"; "push";
   "reverse"; "shift"; "unshift"; "slice"; "sort"; "splice"; "includes";
   "indexOf"; "join"; "keys"; "entries"; "values"; "forEach"; "filter";
   "flat"; "flatMap"; "map"; "every"; "some"; "reduce"; "reduceRight";
   "toLocaleString"; "toString"; "toReversed"; "toSorted"; "toSpliced";
   "with"].

Definition string_prototype : list string :=
  ["length"; "constructor"; "anchor"; "at"; "big"; "blink"; "bold"; "charAt";
   "charCodeAt"; "codePointAt"; "concat"; "endsWith"; "fontcolor";
   "fontsize"; "fixed"; "includes"; "indexOf"; "isWellFormed"; "italics";
   "lastIndexOf"; "link"; "localeCompare"; "match"; "matchAll"; "normalize";
   "padEnd"; "padStart"; "repeat"; "replace"; "replaceAll"; "search";
   "slice"; "small"; "split"; "strike"; "sub"; "substr"; "substring"; "sup";
   "startsWith"; "toString"; "toWellFormed"; "trim"; "trimStart";
   "trimLeft"; "trimEnd"; "trimRight"; "toLocaleLowerCase";
   "toLocaleUpperCase"; "toLowerCase"; "toUpperCase"; "valueOf"].

Definition number_prototype : list string :=
  ["constructor"; "toExponential"; "toFixed"; "toPrecision"; "toString";
   "valueOf"; "toLocaleString"].

Definition boolean_prototype : list string :=
  ["constructor"; "toString"; "valueOf"].

Definition named_in (names : list string) (k : string) : bool :=
  existsb (String.eqb k) names.

(** a name that a plain object answers to without owning it *)
Definition object_member (k : string) : bool := named_in object_prototype k.

(** a name that an array or a plain object answers to without owning it *)
Definition container_member (k : string) : bool :=
  named_in array_prototype k || named_in object_prototype k.

(** [recv[k]] is answered by [recv] although [k] is none of the properties
    [has_own] knows: a member of the prototype chain of [recv], or the
    [length] of an array or of a string *)
Definition builtin_member (recv : value) (k : string) : bool :=
  negb (has_own recv k)
  && match recv with
     | VObj _ => named_in object_prototype k
     | VArr _ _ => named_in array_prototype k || named_in object_prototype k
     | VStr _ => named_in string_prototype k || named_in object_prototype k
     | VNum _ => named_in number_prototype k || named_in object_prototype k
     | VBool _ => named_in boolean_prototype k || named_in object_prototype k
     | VUndef | VNull => false
     end.

(** the largest array index is 2^32 - 2 *)
Definition index_limit : N := 4294967295.


(** The closure of [removeKey]: [None] is the result [null], which the
    source returns both when the key was absent and when it was deleted;
    [Some e] stands for the message of the exception caught. *)
Definition removeKey (this : FastLS) (w : world) (fullPath : value)
  : option exn * world :=
  let (name, path) := _parseFullPath fullPath in
  let (targetDB, w1) := target_of this name w in
  let db := _getDatabase targetDB w1 in
  match call_hasOwnProperty db path with
  | Throw e => (Some e, w1)
  | Ret false => (None, w1)
  | Ret true =>
      match prop_delete db path with
      | Throw e => (Some e, w1)
      | Ret db' => (None, _saveDatabase targetDB db' w1)
      end
  end.

(** The closure of [clear] *)
Definition clear (this : FastLS) (w : world) : world :=
  _saveDatabase this (VObj []) w.

(** The closure of [count]: [Object.keys(db).length] *)
Definition count (this : FastLS) (w : world) : outcome nat :=
  ks <- keys this w ;; Ret (length ks).

(** The closure of [values] *)
Definition values (this : FastLS) (w : world) : outcome (list value) :=
  es <- object_entries (_getDatabase this w) ;; Ret (map snd es).

(** The closure of [entries] *)
Definition entries (this : FastLS) (w : world)
  : outcome (list (string * value)) :=
  object_entries (_getDatabase this w).

(** The closure of [has]: [(await this.get(fullPath)) !== undefined] *)
Definition has (fuel : nat) (this : FastLS) (w : world) (fullPath : value)
  : option (bool * world) :=
  match get fuel this w fullPath with
  | Some (v, w') => Some (negb (is_undefined v), w')
  | None => None
  end.

(** *** [search] and [path] *)

(** A predicate handed to [search] or [path] is a function of the caller; it
    is represented by the truth of what it returns on its first and second
    argument, the second being [undefined] when one argument is passed. *)
Definition predicate := value -> value -> bool.

(** [includeKey ? predicate(key, value) : predicate(value)] *)
Definition test (predicate : predicate) (includeKey : bool) (key : string)
  (v : value) : bool :=
  if includeKey then predicate (VStr key) v else predicate v VUndef.

(** [value && typeof value === 'object' && !Array.isArray(value)] *)
Definition is_plain_object (v : value) : bool :=
  match v with
  | VObj _ => true
  | _ => false
  end.

(** The function [searchRecursive] of [search]: the values pushed on
    [results], in order. *)
Fixpoint searchRecursive (predicate : predicate) (includeKey : bool)
  (obj : value) : list value :=
  match obj with
  | VObj ps =>
      flat_map (fun kv =>
                  ((if test predicate includeKey (fst kv) (snd kv)
                    then [snd kv] else [])
                   ++ (if is_plain_object (snd kv)
                       then searchRecursive predicate includeKey (snd kv)
                       else []))%list) ps
  | VArr es nm =>
      ((fix elements (i : nat) (l : list value) : list value :=
          match l with
          | [] => []
          | e :: l' =>
              ((if test predicate includeKey (string_of_nat i) e
                then [e] else [])
               ++ (if is_plain_object e
                   then searchRecursive predicate includeKey e else [])
               ++ elements (S i) l')%list
          end) 0 es
       ++ flat_map (fun kv =>
                  ((if test predicate includeKey (fst kv) (snd kv)
                    then [snd kv] else [])
                   ++ (if is_plain_object (snd kv)
                       then searchRecursive predicate includeKey (snd kv)
                       else []))%list) nm)%list
  | _ => []
  end.

(** The closure of [search]; a path that is not given reads the whole
    database. *)
Definition search (this : FastLS) (w : world) (path : string)
  (predicate : predicate) (includeKey : bool) : list value :=
  match _getValueByPath (caseSen this) (_getDatabase this w) path with
  | Ret targetObj => searchRecursive predicate includeKey targetObj
  | Throw _ => []
  end.

(** [currentPath ? `${currentPath}.${key}` : key] *)
Definition extend_path (currentPath key : string) : string :=
  if String.eqb currentPath "" then key else currentPath ++ "." ++ key.

(** The function [searchRecursive] of [path]: [Some fullPath] when it
    returns [true], having set [foundPath]. *)
Fixpoint pathRecursive (predicate : predicate) (includeKey : bool)
  (obj : value) (currentPath : string) : option string :=
  match obj with
  | VObj ps =>
      (fix over (l : list (string * value)) : option string :=
         match l with
         | [] => None
         | kv :: l' =>
             let fullPath := extend_path currentPath (fst kv) in
             if test predicate includeKey (fst kv) (snd kv) then Some fullPath
             else match (if is_plain_object (snd kv)
                         then pathRecursive predicate includeKey (snd kv) fullPath
                         else None) with
                  | Some found => Some found
                  | None => over l'
                  end
         end) ps
  | VArr es nm =>
      (fix elements (i : nat) (l : list value) : option string :=
         match l with
         | [] =>
             (fix over (l : list (string * value)) : option string :=
                match l with
                | [] => None
                | kv :: l' =>
                    let fullPath := extend_path currentPath (fst kv) in
                    if test predicate includeKey (fst kv) (snd kv)
                    then Some fullPath
                    else match (if is_plain_object (snd kv)
                                then pathRecursive predicate includeKey
                                       (snd kv) fullPath
                                else None) with
                         | Some found => Some found
                         | None => over l'
                         end
                end) nm
         | e :: l' =>
             let fullPath := extend_path currentPath (string_of_nat i) in
             if test predicate includeKey (string_of_nat i) e then Some fullPath
             else match (if is_plain_object e
                         then pathRecursive predicate includeKey e fullPath
                         else None) with
                  | Some found => Some found
                  | None => elements (S i) l'
                  end
         end) 0 es
  | _ => None
  end.

(** The closure of [path]; [None] is the result [null]. *)
Definition path (this : FastLS) (w : world) (path : string)
  (predicate : predicate) (includeKey : bool) : option string :=
  match _getValueByPath (caseSen this) (_getDatabase this w) path with
  | Ret targetObj => pathRecursive predicate includeKey targetObj ""
  | Throw _ => None
  end.

(** *** The write and the delete of [index.js] *)

Module V1Update.

(** the loop of [_setValueByPath] and its final assignment, each level
    giving back its receiver with the child stored *)
Fixpoint set_loop (current : value) (keys : list string) (v : value)
  {struct keys} : outcome value :=
  match keys with
  | [] => Ret current
  | key :: keys' =>
      match keys' with
      | [] => prop_write current key v
      | _ :: _ =>
          c <- prop_read current key ;;
          current' <- (if is_object c then Ret current
                       else prop_write current key (VObj [])) ;;
          child <- set_loop (if is_object c then c else VObj []) keys' v ;;
          prop_write current' key child
      end
  end.

Definition _setValueByPath (obj : value) (path : string) (v : value)
  : outcome value :=
  match V1._parsePath path with
  | [] => Ret v
  | keys => set_loop obj keys v
  end.

(** the loop of [_deleteValueByPath] and its final test; a level that
    finds no container below gives back its receiver, which is the source's
    [return obj] *)
Fixpoint delete_loop (current : value) (keys : list string) {struct keys}
  : outcome value :=
  match keys with
  | [] => Ret current
  | key :: keys' =>
      match keys' with
      | [] =>
          x <- prop_read current key ;;
          if is_undefined x then Ret current else prop_delete current key
      | _ :: _ =>
          c <- prop_read current key ;;
          if is_object c then
            child <- delete_loop c keys' ;; prop_write current key child
          else Ret current
      end
  end.

Definition _deleteValueByPath (obj : value) (path : string) : outcome value :=
  delete_loop obj (V1._parsePath path).

End V1Update.

(** *** Trees the codec leaves alone *)

(** no [undefined] inside, no property on an array besides its elements, no
    truthy function marker on an object *)
Fixpoint plain_json (v : value) : bool :=
  match v with
  | VUndef => false
  | VArr es nm =>
      forallb plain_json es && match nm with [] => true | _ => false end
  | VObj ps =>
      forallb (fun kv => plain_json (snd kv)) ps
      && negb (truthy (lookup ps reserved_name))
  | _ => true
  end.

(** the name of the property or of the array a segment starts with *)
Definition head_name (key : string) : string :=
  match arrayMatch key with
  | Some (arrayName, _) => arrayName
  | None => key
  end.

(** *** Notions for the further properties *)

Fixpoint forallb_char (p : ascii -> bool) (s : string) : bool :=
  match s with
  | EmptyString => true
  | String c s' => p c && forallb_char p s'
  end.

(** a segment as [_normalizePath] leaves it: not empty, not [.] nor [..],
    free of separators *)
Definition segment_ok (s : string) : bool :=
  negb (String.eqb s "") && negb (String.eqb s ".") && negb (String.eqb s "..")
  && negb (existsb_char is_separator s).

(** a key that is one segment for every splitter of the class: a
    [segment_ok] without colon and without dot that the array syntax does
    not match *)
Definition plain_key (k : string) : bool :=
  segment_ok k && negb (includes ":"%char k) && negb (existsb_char is_dot k)
  && match arrayMatch k with None => true | Some _ => false end.

(** a segment whose name no object and no array answers to by itself, with
    an array index where it has the form [name[i]] *)
Definition own_segment (key : string) : bool :=
  match arrayMatch key with
  | Some (arrayName, digits) =>
      negb (container_member arrayName)
      && (N.of_nat (parseInt digits) <? index_limit)%N
  | None => negb (container_member key)
  end.

(** a sub-path made of such segments *)
Definition own_path (p : string) : bool :=
  forallb own_segment (split_on is_dot p).

(** the same for the keys [index.js] parses a path into *)
Definition own_keys (p : string) : bool :=
  forallb (fun k => negb (container_member k)) (V1._parsePath p).


(** the test of [get] on the entry it finds: truthy, with a truthy
    [__fastls_exception_shortcut] *)
Definition is_shortcut (v : value) : bool :=
  truthy v && match prop_read v shortcut_key with
              | Ret target => truthy target
              | Throw _ => false
              end.

(** the entries of the root as [_saveRoot] writes them and [_getRoot] reads
    them back, before the reviver looks at the root itself *)
Definition encoded_entries (root : props) : props :=
  flat_map (fun kv => if is_undefined (snd kv) then []
                      else [(fst kv, jsonRoundTrip (snd kv))]) root.

(** *** Induction on trees *)

Section ValueInduction.

Variable P : value -> Prop.
Hypothesis P_undef : P VUndef.
Hypothesis P_null : P VNull.
Hypothesis P_bool : forall b, P (VBool b).
Hypothesis P_num : forall n, P (VNum n).
Hypothesis P_str : forall s, P (VStr s).
Hypothesis P_arr : forall es nm,
    Forall P es -> Forall (fun kv => P (snd kv)) nm -> P (VArr es nm).
Hypothesis P_obj : forall ps, Forall (fun kv => P (snd kv)) ps -> P (VObj ps).

Fixpoint value_ind_nested (v : value) : P v :=
  match v with
  | VUndef => P_undef
  | VNull => P_null
  | VBool b => P_bool b
  | VNum n => P_num n
  | VStr s => P_str s
  | VArr es nm =>
      P_arr es nm
        ((fix all (l : list value) : Forall P l :=
            match l with
            | [] => Forall_nil P
            | e :: l' => Forall_cons e (value_ind_nested e) (all l')
            end) es)
        ((fix all (l : list (string * value))
            : Forall (fun kv => P (snd kv)) l :=
            match l with
            | [] => Forall_nil _
            | (k, e) :: l' =>
                Forall_cons (P := fun kv => P (snd kv)) (k, e)
                  (value_ind_nested e) (all l')
            end) nm)
  | VObj ps =>
      P_obj ps
        ((fix all (l : list (string * value))
            : Forall (fun kv => P (snd kv)) l :=
            match l with
            | [] => Forall_nil _
            | (k, e) :: l' =>
                Forall_cons (P := fun kv => P (snd kv)) (k, e)
                  (value_ind_nested e) (all l')
            end) ps)
  end.

End ValueInduction.

(** * Properties *)

(** ** Path normalisation *)

Lemma normalize_parts_app (pre rest st : list string) :
  normalize_parts (pre ++ rest)%list st
  = normalize_parts rest (rev (normalize_parts pre st)).
Proof.
  revert st. induction pre as [|p pre IH]; intro st; simpl.
  - now rewrite rev_involutive.
  - destruct (String.eqb p ".."); [apply IH|].
    destruct (String.eqb p "" || String.eqb p "."); apply IH.
Qed.

Lemma normalize_parts_excess_dotdot (pre post : list string) :
  normalize_parts pre [] = [] ->
  normalize_parts (pre ++ ".." :: post)%list []
  = normalize_parts (pre ++ post)%list [].
Proof.
  intro Hempty.
  rewrite !normalize_parts_app, Hempty. reflexivity.
Qed.

Lemma split_on_not_nil (p : ascii -> bool) (s : string) : split_on p s <> [].
Proof.
  destruct s as [|c s]; simpl; [discriminate|].
  destruct (p c); [discriminate|].
  destruct (split_on p s); discriminate.
Qed.

(** C10. [_normalizePath] is a total function and clamps at the root: a [..]
    token met while the stack of segments is empty is dropped, so the raw path
    normalises to what it would without that token. *)
Theorem normalizePath_clamps_at_root (raw : string) (pre post : list string) :
  split_on is_separator (strip_flag raw) = (pre ++ ".." :: post)%list ->
  normalize_parts pre [] = [] ->
  _normalizePath raw = join sep (normalize_parts (pre ++ post)%list []).
Proof.
  intros Hsplit Hempty. unfold _normalizePath.
  destruct (String.eqb raw "") eqn:Hraw.
  - apply String.eqb_eq in Hraw. subst raw. simpl in Hsplit.
    destruct pre as [|p [|q pre]]; simpl in Hsplit; discriminate.
  - rewrite Hsplit. now rewrite normalize_parts_excess_dotdot.
Qed.

Lemma normalizePath_clamps_at_root_witness :
  _normalizePath "a/../../b" = "b".
Proof.
  apply (normalizePath_clamps_at_root "a/../../b" ["a"; ".."] ["b"]);
    reflexivity.
Defined.

(** ** Folder deletion *)

Lemma upsert_fresh (ps : props) (k : string) (v : value) :
  ~ In k (map fst ps) -> upsert ps k v = (ps ++ [(k, v)])%list.
Proof.
  induction ps as [|[k' v'] ps IH]; simpl; intro Hfresh; [reflexivity|].
  destruct (String.eqb k' k) eqn:E.
  - apply String.eqb_eq in E. exfalso. apply Hfresh. now left.
  - f_equal. apply IH. intro Hin. apply Hfresh. now right.
Qed.

Lemma rebuilt_keys (keep : string -> bool)
  (change : string -> value -> value) (db : props) :
  map fst (rebuilt keep change db) = filter keep (map fst db).
Proof.
  unfold rebuilt. rewrite map_map. simpl.
  now rewrite filter_map_swap.
Qed.

Lemma rebuild_from (keep : string -> bool)
  (change : string -> value -> value) (db acc : props) :
  NoDup (map fst acc ++ map fst db)%list ->
  fold_left (fun newDB kv =>
               if keep (fst kv)
               then upsert newDB (fst kv) (change (fst kv) (snd kv))
               else newDB) db acc
  = (acc ++ rebuilt keep change db)%list.
Proof.
  revert acc. induction db as [|[k v] db IH]; intros acc Hnd; simpl.
  - now rewrite app_nil_r.
  - unfold rebuilt. simpl.
    assert (Hk : ~ In k (map fst acc)).
    { intro Hin. apply NoDup_remove_2 in Hnd. apply Hnd.
      apply in_or_app. now left. }
    destruct (keep k) eqn:Ek; simpl.
    + rewrite upsert_fresh by assumption.
      rewrite IH.
      * now rewrite <- app_assoc.
      * rewrite map_app, <- app_assoc. exact Hnd.
    + apply IH. apply NoDup_remove_1 in Hnd. exact Hnd.
Qed.

(** On an object, whose keys are distinct, the rebuilding loop is a filter
    followed by a map. *)
Lemma rebuild_spec (keep : string -> bool)
  (change : string -> value -> value) (db : props) :
  NoDup (map fst db) -> rebuild keep change db = rebuilt keep change db.
Proof.
  intro Hnd. unfold rebuild. now rewrite rebuild_from.
Qed.

Lemma Permutation_filter {A : Type} (f : A -> bool) (l l' : list A) :
  Permutation l l' -> Permutation (filter f l) (filter f l').
Proof.
  induction 1 as [|x l l' _ IH|x y l|l l' l'' _ IH1 _ IH2]; simpl.
  - constructor.
  - destruct (f x); [now constructor|assumption].
  - destruct (f x), (f y); try reflexivity. constructor.
  - now transitivity (filter f l').
Qed.

Lemma folder_keys_NoDup : NoDup folder_keys.
Proof.
  unfold folder_keys.
  repeat (constructor; [simpl; intuition discriminate|]). constructor.
Qed.

Lemma four_keys_NoDup (db : props) :
  Permutation (map fst db) folder_keys -> NoDup (map fst db).
Proof.
  intro Hp. apply (Permutation_NoDup (Permutation_sym Hp)), folder_keys_NoDup.
Qed.

(** the keys a filter keeps, from the keys it keeps among [folder_keys] *)
Ltac filtered_keys Hp :=
  match goal with
  | |- Permutation (filter ?f _) ?r =>
      let H := fresh "H" in
      pose proof (Permutation_filter f _ _ Hp) as H;
      replace (filter f folder_keys) with r in H by (vm_compute; reflexivity);
      exact H
  end.

(** C1, as the code has it.  Over a map whose keys are [a], [a\b], [a\b\c]
    and [a\d] and for the folder [a]: the strategy [folder] leaves the empty
    map; [nestedFolders] leaves [a], [a\b] and [a\d], the key [a] itself not
    lying under the prefix [a\]; [structure] keeps the four keys, in their
    order, each with an empty object for value. *)
Theorem folder_strategies_on_four_keys (db : props) :
  Permutation (map fst db) folder_keys ->
  remove_loop db [(Some "a", "folder")] = Updated []
  /\ (exists r, remove_loop db [(Some "a", "nestedFolders")] = Updated r
                /\ Permutation (map fst r) ["a"; "a" ++ sep ++ "b"; "a" ++ sep ++ "d"])
  /\ (exists r, remove_loop db [(Some "a", "structure")] = Updated r
                /\ map fst r = map fst db
                /\ Forall (fun kv => snd kv = VObj []) r).
Proof.
  intro Hp. pose proof (four_keys_NoDup db Hp) as Hnd.
  repeat split.
  - simpl. unfold apply_strategy. simpl. f_equal.
    unfold _deleteFolder. rewrite rebuild_spec by assumption.
    apply map_eq_nil with (f := fst). rewrite rebuilt_keys.
    apply Permutation_nil. symmetry. filtered_keys Hp.
  - eexists. split; [reflexivity|].
    unfold apply_strategy. simpl.
    unfold _deleteNestedFolders. rewrite rebuild_spec by assumption.
    rewrite rebuilt_keys. filtered_keys Hp.
  - eexists. split; [reflexivity|].
    unfold apply_strategy. simpl.
    unfold _deleteFolderContents. rewrite rebuild_spec by assumption.
    split.
    + rewrite rebuilt_keys. clear. induction (map fst db); simpl; congruence.
    + unfold rebuilt. apply Forall_forall. intros [k v] Hin.
      apply in_map_iff in Hin. destruct Hin as [[k' v'] [Heq Hin]].
      apply filter_In in Hin. destruct Hin as [Hin _].
      assert (Hk : In k' folder_keys).
      { apply (Permutation_in _ Hp). apply in_map_iff.
        now exists (k', v'). }
      unfold folder_keys in Hk. simpl in Hk.
      destruct Hk as [<-|[<-|[<-|[<-|[]]]]];
        vm_compute in Heq; inversion Heq; reflexivity.
Qed.

Lemma folder_strategies_on_four_keys_witness :
  remove_loop four_keys_db [(Some "a", "folder")] = Updated [].
Proof.
  apply (folder_strategies_on_four_keys four_keys_db).
  apply Permutation_refl.
Defined.

(** C1 fails as stated on [four_keys_db]: [root] does not leave [{a\b\c}] and
    [nestedFolders] does not leave [{a\b, a\d}]; both leave [a], [a\b] and
    [a\d]. *)
Lemma folder_strategies_counterexample :
  Permutation (map fst four_keys_db) folder_keys
  /\ remove_loop four_keys_db [(Some "a", "root")]
     = Updated [("a", VNum 1); ("a" ++ sep ++ "b", VNum 2); ("a" ++ sep ++ "d", VNum 4)]
  /\ remove_loop four_keys_db [(Some "a", "nestedFolders")]
     = Updated [("a", VNum 1); ("a" ++ sep ++ "b", VNum 2); ("a" ++ sep ++ "d", VNum 4)]
  /\ ~ Permutation (map fst (_deleteRootKeys four_keys_db "a"))
         ["a" ++ sep ++ "b" ++ sep ++ "c"]
  /\ ~ Permutation (map fst (_deleteNestedFolders four_keys_db "a"))
         ["a" ++ sep ++ "b"; "a" ++ sep ++ "d"].
Proof.
  split; [apply Permutation_refl|].
  split; [reflexivity|]. split; [reflexivity|].
  split; intro Hp; apply Permutation_length in Hp; discriminate.
Qed.

(** The strategy [root] runs the very code of [nestedFolders]. *)
Lemma deleteRootKeys_is_deleteNestedFolders (db : props) (folderPath : string) :
  _deleteRootKeys db folderPath = _deleteNestedFolders db folderPath.
Proof. reflexivity. Qed.

(** ** The nested read *)












(** ** The nested write *)

Lemma lookup_upsert (ps : props) (k : string) (v : value) :
  lookup (upsert ps k v) k = v.
Proof.
  induction ps as [|[k' v'] ps IH]; simpl.
  - now rewrite String.eqb_refl.
  - destruct (String.eqb k' k) eqn:E; simpl.
    + now rewrite String.eqb_refl.
    + now rewrite E.
Qed.

Lemma nth_replace_nth (es : list value) (i : nat) (v : value) :
  i < length es -> nth i (replace_nth i es v) VUndef = v.
Proof.
  revert i. induction es as [|e es IH]; intros [|i] Hlt; simpl in *;
    try lia; [reflexivity|].
  apply IH. lia.
Qed.

Lemma pad_length (es : list value) (i : nat) (filler : value) :
  i < length (pad es i filler).
Proof.
  unfold pad. rewrite length_app, repeat_length. lia.
Qed.

Lemma prop_read_write (recv recv' : value) (k : string) (v : value) :
  prop_write recv k v = Ret recv' -> prop_read recv' k = Ret v.
Proof.
  destruct recv; simpl; try discriminate.
  - destruct (array_index k) as [i|] eqn:Hi; intro H; inversion H; subst;
      simpl; rewrite Hi.
    + unfold store_elem. now rewrite nth_replace_nth by apply pad_length.
    + now rewrite lookup_upsert.
  - intro H. inversion H; subst. simpl. now rewrite lookup_upsert.
Qed.

Lemma prop_write_object (recv recv' : value) (k : string) (v : value) :
  prop_write recv k v = Ret recv' ->
  is_object recv = true /\ is_object recv' = true.
Proof.
  destruct recv; simpl; try discriminate.
  - destruct (array_index k); intro H; inversion H; now split.
  - intro H; inversion H; now split.
Qed.

Lemma ensure_array_spec (current : value) (arrayName : string)
  (current' a : value) :
  ensure_array current arrayName = Ret (current', a) ->
  isArray a = true
  /\ (forall a' r, prop_write current' arrayName a' = Ret r ->
                  is_object current = true).
Proof.
  unfold ensure_array.
  destruct (prop_read current arrayName) as [x|] eqn:Hread; simpl;
    [|discriminate].
  destruct (truthy x && isArray x) eqn:Harr.
  - intro H; inversion H; subst. apply andb_true_iff in Harr.
    split; [apply Harr|].
    intros a' r Hw. apply (prop_write_object _ _ _ _ Hw).
  - destruct (prop_write current arrayName (VArr [] [])) as [c|] eqn:Hw;
      simpl; [|discriminate].
    intro H; inversion H; subst. split; [reflexivity|].
    intros _ _ _. apply (prop_write_object _ _ _ _ Hw).
Qed.

Lemma set_loop_last (cs : bool) (cur : value) (key : string) (v : value) :
  set_loop cs cur [key] v = set_last cs cur key v.
Proof. reflexivity. Qed.

Lemma set_loop_cons (cs : bool) (cur : value) (key k2 : string)
  (rest : list string) (v : value) :
  set_loop cs cur (key :: k2 :: rest) v
  = match arrayMatch key with
    | Some (arrayName, digits) =>
        let index := parseInt digits in
        ca <- ensure_array cur arrayName ;;
        let (es, nm) := array_parts (snd ca) in
        let es' := pad es index (VObj []) in
        child <- set_loop cs (nth index es' VUndef) (k2 :: rest) v ;;
        prop_write (fst ca) arrayName (VArr (replace_nth index es' child) nm)
    | None =>
        actualKey <- actual_key cs cur key ;;
        c <- prop_read cur actualKey ;;
        current' <- (if is_object c then Ret cur
                     else prop_write cur actualKey (VObj [])) ;;
        child <- set_loop cs (if is_object c then c else VObj [])
                   (k2 :: rest) v ;;
        prop_write current' actualKey child
    end.
Proof. reflexivity. Qed.

Lemma set_last_object (cs : bool) (cur : value) (key : string) (v r : value) :
  set_last cs cur key v = Ret r -> is_object cur = true /\ is_object r = true.
Proof.
  unfold set_last.
  destruct (arrayMatch key) as [[arrayName digits]|].
  - destruct (ensure_array cur arrayName) as [[c1 a]|] eqn:He;
      cbn [bind fst snd]; [|discriminate].
    destruct (array_parts a) as [es nm]. intro Hw.
    split; [|apply (prop_write_object _ _ _ _ Hw)].
    apply (proj2 (ensure_array_spec _ _ _ _ He) _ _ Hw).
  - destruct (actual_key cs cur key) as [ak|]; cbn [bind]; [|discriminate].
    apply prop_write_object.
Qed.

(** A write that returns started on an object or an array and returns
    one. *)
Lemma set_loop_object (cs : bool) (keys : list string) :
  forall cur v r, keys <> [] -> set_loop cs cur keys v = Ret r ->
                  is_object cur = true /\ is_object r = true.
Proof.
  destruct keys as [|key [|k2 rest]]; [congruence| |]; intros cur v r _.
  - rewrite set_loop_last. apply set_last_object.
  - rewrite set_loop_cons.
    destruct (arrayMatch key) as [[arrayName digits]|].
    + destruct (ensure_array cur arrayName) as [[c1 a]|] eqn:He;
        cbn [bind fst snd]; [|discriminate].
      destruct (array_parts a) as [es nm]. cbv zeta.
      destruct (set_loop cs _ (k2 :: rest) v) as [child|]; cbn [bind];
        [|discriminate].
      intro Hw. split; [|apply (prop_write_object _ _ _ _ Hw)].
      apply (proj2 (ensure_array_spec _ _ _ _ He) _ _ Hw).
    + destruct (actual_key cs cur key) as [ak|]; cbn [bind]; [|discriminate].
      destruct (prop_read cur ak) as [c|] eqn:Hread; cbn [bind];
        [|discriminate].
      destruct (is_object c) eqn:Hc; cbn [bind].
      * destruct (set_loop cs c (k2 :: rest) v) as [child|]; cbn [bind];
          [|discriminate].
        apply prop_write_object.
      * destruct (prop_write cur ak (VObj [])) as [c1|] eqn:Hw1; cbn [bind];
          [|discriminate].
        destruct (set_loop cs (VObj []) (k2 :: rest) v) as [child|];
          cbn [bind]; [|discriminate].
        intro Hw. split; [apply (prop_write_object _ _ _ _ Hw1)
                         |apply (prop_write_object _ _ _ _ Hw)].
Qed.

Lemma is_object_not_undefined (v : value) :
  is_object v = true -> is_undefined v = false.
Proof. destruct v; simpl; congruence. Qed.

Lemma get_last (v : value) :
  (if is_undefined v then Ret VUndef else Ret v) = Ret v.
Proof. destruct v; reflexivity. Qed.

Lemma get_loop_cons (cs : bool) (cur : value) (key : string)
  (keys : list string) :
  get_loop cs cur (key :: keys)
  = if negb (is_object cur) then Ret VUndef
    else next <- get_step cs cur key ;;
         if is_undefined next then Ret VUndef else get_loop cs next keys.
Proof. reflexivity. Qed.

(** In case-sensitive mode a write that returns can be read back. *)
Lemma set_loop_get_loop (keys : list string) :
  forall cur v r, keys <> [] -> set_loop true cur keys v = Ret r ->
                  get_loop true r keys = Ret v.
Proof.
  induction keys as [|key keys' IH]; [congruence|].
  intros cur v r _ Hset.
  destruct (set_loop_object true (key :: keys') cur v r ltac:(discriminate) Hset)
    as [_ Hr].
  rewrite get_loop_cons, Hr. cbn [negb]. unfold get_step.
  destruct keys' as [|k2 rest].
  - (* the final assignment *)
    rewrite set_loop_last in Hset. unfold set_last in Hset.
    destruct (arrayMatch key) as [[arrayName digits]|].
    + destruct (ensure_array cur arrayName) as [[c1 a]|] eqn:He;
        cbn [bind fst snd] in Hset; [|discriminate].
      destruct (array_parts a) as [es nm].
      rewrite (prop_read_write _ _ _ _ Hset). cbn.
      rewrite nth_replace_nth by apply pad_length. apply get_last.
    + cbn in Hset. rewrite (prop_read_write _ _ _ _ Hset). cbn.
      apply get_last.
  - (* an intermediate segment *)
    rewrite set_loop_cons in Hset.
    destruct (arrayMatch key) as [[arrayName digits]|].
    + destruct (ensure_array cur arrayName) as [[c1 a]|] eqn:He;
        cbn [bind fst snd] in Hset; [|discriminate].
      destruct (array_parts a) as [es nm]. cbv zeta in Hset.
      destruct (set_loop true _ (k2 :: rest) v) as [child|] eqn:Hchild;
        cbn [bind] in Hset; [|discriminate].
      rewrite (prop_read_write _ _ _ _ Hset). cbn [bind truthy isArray andb
        array_parts fst].
      rewrite nth_replace_nth by apply pad_length.
      destruct (set_loop_object true (k2 :: rest) _ v child
                  ltac:(discriminate) Hchild) as [_ Hobj].
      rewrite (is_object_not_undefined _ Hobj).
      apply (IH _ _ _ ltac:(discriminate) Hchild).
    + cbn [actual_key negb andb bind] in Hset.
      destruct (prop_read cur key) as [c|] eqn:Hread; cbn [bind] in Hset;
        [|discriminate].
      destruct (if is_object c then Ret cur else prop_write cur key (VObj []))
        as [c1|]; cbn [bind] in Hset; [|discriminate].
      destruct (set_loop true _ (k2 :: rest) v) as [child|] eqn:Hchild;
        cbn [bind] in Hset; [|discriminate].
      cbn [negb andb].
      rewrite (prop_read_write _ _ _ _ Hset). cbn [bind].
      destruct (set_loop_object true (k2 :: rest) _ v child
                  ltac:(discriminate) Hchild) as [_ Hobj].
      rewrite (is_object_not_undefined _ Hobj).
      apply (IH _ _ _ ltac:(discriminate) Hchild).
Qed.

Lemma is_object_truthy (v : value) : is_object v = true -> truthy v = true.
Proof. destruct v; simpl; congruence. Qed.

(** The round trip that does hold: in case-sensitive mode, on a truthy tree,
    whenever [_setValueByPath] returns, [_getValueByPath] reads the value
    back from the tree it returns. *)
Lemma setValueByPath_getValueByPath (tree : value) (path : string)
  (v tree' : value) :
  truthy tree = true ->
  _setValueByPath true tree path v = Ret tree' ->
  _getValueByPath true tree' path = Ret v.
Proof.
  intros Htruthy. unfold _setValueByPath, _getValueByPath.
  destruct (String.eqb path "") eqn:Hpath; simpl.
  - intro H; inversion H; reflexivity.
  - rewrite Htruthy.
    destruct (set_loop true tree (split_on is_dot path) v) as [r|] eqn:Hset;
      simpl; [|discriminate].
    intro H; inversion H; subst tree'.
    destruct (set_loop_object true _ _ _ _ (split_on_not_nil _ _) Hset)
      as [_ Hobj].
    rewrite (is_object_truthy _ Hobj). simpl.
    apply (set_loop_get_loop _ _ _ _ (split_on_not_nil _ _) Hset).
Qed.

(** C8 at its failing inputs.  When the segment before the last one is an
    array element that holds [null] (or any value that is not a container),
    [_setValueByPath] does not replace it by a fresh container: the
    assignment into it throws, and through [set] the write to [items[0].x]
    that follows a write to [items[1]] is reported as an error with nothing
    stored.  On the tree [null] the write is lost: the tree comes back
    unchanged and the value cannot be read from it. *)
Theorem setValueByPath_no_round_trip :
  (forall cs v, _setValueByPath cs null_item "items[0].x" v = Throw TypeError)
  /\ (forall size,
        let after := set size main_db fresh_world (VStr "items[1]") (VNum 5) in
        snd after = [("main", VObj [("items", VArr [VNull; VNum 5] [])])]
        /\ set size main_db (snd after) (VStr "items[0].x") (VNum 1)
           = (SetThrew TypeError, main_db, snd after))
  /\ _setValueByPath true VNull "a" (VNum 1) = Ret VNull
  /\ _getValueByPath true VNull "a" = Ret VNull.
Proof.
  repeat split.
  intros [|] v; reflexivity.
Qed.

(** ** Shortcuts *)

Lemma target_of_local (this : FastLS) (w : world) (name : option string) :
  name = None \/ name = Some (dbName this) -> target_of this name w = (this, w).
Proof.
  intros [->| ->]; simpl; [reflexivity|].
  now rewrite String.eqb_refl, andb_false_r.
Qed.

(** [get] follows a shortcut by calling itself and nothing stops it on a
    chain that never leaves shortcuts. *)
Lemma get_diverges (this : FastLS) (w : world) (chain : list value) :
  closed_chain this w chain ->
  forall fuel fullPath, In fullPath chain -> get fuel this w fullPath = None.
Proof.
  intros Hclosed. induction fuel as [|fuel IH]; intros fullPath Hin;
    [reflexivity|].
  destruct (Hclosed fullPath Hin)
    as (path & target & [Hpath Hname] & (dv & Hread & Hdv & Htarget & Ht) & Hnext).
  simpl. destruct (_parseFullPath fullPath) as [name path'].
  simpl in Hpath, Hname. subst path'.
  rewrite (target_of_local this w name Hname).
  rewrite Hread, Hdv, Htarget, Ht. simpl.
  apply IH, Hnext.
Qed.

Lemma cyclic_world_closed :
  closed_chain main_db cyclic_world [VStr "x"; VStr "y"].
Proof.
  intros fullPath [<-|[<-|[]]].
  - exists "x", (VStr "y"). repeat split.
    + now left.
    + exists (shortcut_to "y"). now repeat split.
    + simpl. auto.
  - exists "y", (VStr "x"). repeat split.
    + now left.
    + exists (shortcut_to "x"). now repeat split.
    + simpl. auto.
Qed.

(** the same for calls that go from one database to another *)
Lemma get_diverges_across (calls : FastLS -> world -> value -> Prop) :
  closed_calls calls ->
  forall fuel this w fullPath,
    calls this w fullPath -> get fuel this w fullPath = None.
Proof.
  intros Hclosed. induction fuel as [|fuel IH]; intros this w fullPath Hin;
    [reflexivity|].
  destruct (Hclosed this w fullPath Hin)
    as (targetDB & w1 & target & [Htarget (dv & Hread & Hdv & Hshort & Ht)]
        & Hnext).
  cbn [get]. destruct (_parseFullPath fullPath) as [name path].
  cbn [fst snd] in Htarget, Hread.
  rewrite Htarget, Hread, Hdv, Hshort, Ht. cbn [andb].
  apply IH, Hnext.
Qed.

Lemma crossed_calls_closed : closed_calls crossed_calls.
Proof.
  intros this w fullPath [| |].
  - exists main_db, crossed_world, (VStr "other:y"). split; [|constructor].
    split; [reflexivity|].
    exists (shortcut_to "other:y"). now repeat split.
  - exists other_db, crossed_world, (VStr "main:x"). split; [|constructor].
    split; [reflexivity|].
    exists (shortcut_to "main:x"). now repeat split.
  - exists main_db, crossed_world, (VStr "other:y"). split; [|constructor].
    split; [reflexivity|].
    exists (shortcut_to "other:y"). now repeat split.
Qed.

(** C3, as the code has it.  [get] keeps no record of the paths it went
    through.  On a cyclic chain of shortcuts, within one database or from one
    database to another (a set of calls in which every call finds a shortcut
    whose target is again a call of the set), the call on an instance built
    with [useAsync] never produces a result, however many nested calls are
    allowed: no error is raised. *)
Theorem get_on_cyclic_shortcuts_never_returns
  (calls : FastLS -> world -> value -> Prop)
  (this : FastLS) (w : world) (fullPath : value) :
  useAsync this = true ->
  closed_calls calls ->
  calls this w fullPath ->
  forall fuel, get fuel this w fullPath = None.
Proof.
  intros _ Hclosed Hin fuel.
  exact (get_diverges_across calls Hclosed fuel this w fullPath Hin).
Qed.

Lemma get_on_cyclic_shortcuts_never_returns_witness :
  get 100 main_db crossed_world (VStr "x") = None.
Proof.
  apply (get_on_cyclic_shortcuts_never_returns crossed_calls main_db
           crossed_world (VStr "x")).
  - reflexivity.
  - exact crossed_calls_closed.
  - constructor.
Defined.

(** C3 fails as stated on the chain [x -> y -> x]: the two shortcuts are
    stored by [setShortcut], and [get("x")] neither terminates nor fails. *)
Lemma get_cyclic_counterexample :
  (forall size,
     let after_x := setShortcut size main_db fresh_world (VStr "x") (VStr "y") in
     snd (setShortcut size main_db (snd after_x) (VStr "y") (VStr "x"))
     = cyclic_world)
  /\ ~ (exists fuel result,
          get fuel main_db cyclic_world (VStr "x") = Some result).
Proof.
  split; [reflexivity|].
  intros (fuel & result & Hget).
  rewrite (get_diverges _ _ _ cyclic_world_closed fuel (VStr "x")) in Hget;
    [discriminate|simpl; auto].
Qed.

(** An acyclic chain is followed to its end: [a -> b -> c] with [c = 42]. *)
Lemma get_follows_chain :
  get 3 main_db
      [("main", VObj [("a", shortcut_to "b"); ("b", shortcut_to "c");
                      ("c", VNum 42)])]
      (VStr "a")
  = Some (VNum 42,
          [("main", VObj [("a", shortcut_to "b"); ("b", shortcut_to "c");
                          ("c", VNum 42)])]).
Proof. reflexivity. Qed.

(** ** Path rejection in [set] *)

Lemma getDatabase_truthy (this : FastLS) (w : world) :
  truthy (_getDatabase this w) = true.
Proof.
  unfold _getDatabase.
  destruct (truthy (lookup w (dbName this))) eqn:E; [exact E|reflexivity].
Qed.

Lemma prop_read_truthy (db : value) (k : string) :
  truthy db = true -> exists r, prop_read db k = Ret r.
Proof.
  destruct db; simpl; try discriminate; intros _; eauto;
    destruct (array_index k); eauto.
Qed.

Lemma object_entries_truthy (db : value) :
  truthy db = true -> object_entries db = Ret (own_entries db).
Proof. destruct db; simpl; try discriminate; reflexivity. Qed.

Lemma currentPathSize_truthy (size : value -> Z) (db : value) (path : string) :
  truthy db = true -> exists n, currentPathSize size db path = Ret n.
Proof.
  intro Ht. unfold currentPathSize.
  destruct (prop_read_truthy db path Ht) as [r ->]. simpl. eauto.
Qed.

Lemma checkQuota_returns (size : value -> Z) (this : FastLS) (db : value)
  (path : string) (v : value) :
  truthy db = true ->
  exists r, _checkQuotaBeforeSet size this db path v = Ret r.
Proof.
  intro Ht. unfold _checkQuotaBeforeSet, check_folder, check_global,
    _calculateFolderSize.
  rewrite (object_entries_truthy db Ht).
  destruct (currentPathSize_truthy size db path Ht) as [n ->].
  destruct (find _ (folderQuotas this)) as [[folderPath q]|]; simpl.
  - destruct (q <? _)%Z; [destruct (size v <=? q)%Z; simpl; eauto|].
    simpl. destruct (quota this) as [g|]; simpl; [|eauto].
    destruct (g <? _)%Z; [destruct (size v <=? g)%Z; eauto|].
    destruct (_ =? g)%Z; eauto.
  - destruct (quota this) as [g|]; simpl; [|eauto].
    destruct (g <? _)%Z; [destruct (size v <=? g)%Z; eauto|].
    destruct (_ =? g)%Z; eauto.
Qed.

Lemma set_unfold (size : value -> Z) (this : FastLS) (w : world)
  (fullPath v : value) (name : option string) (path : string) :
  _parseFullPath fullPath = (name, path) ->
  set size this w fullPath v
  = match (if String.eqb path "" then Ret tt else _validatePath path) with
    | Throw e => (SetThrew e, this, w)
    | Ret _ =>
        let (targetDB, w1) := target_of this name w in
        let db := _getDatabase targetDB w1 in
        match _checkQuotaBeforeSet size this db path v with
        | Throw e => (SetThrew e, with_quotaMessage this None, w1)
        | Ret (message, quotaCheck) =>
            let this' := with_quotaMessage this message in
            if negb (allowed quotaCheck)
            then (SetRejected quotaCheck, this', w1)
            else
              let valueToStore := if storeNull quotaCheck then VNull else v in
              match _setValueByPath (caseSen this) db path valueToStore with
              | Throw e => (SetThrew e, this', w1)
              | Ret updatedDB =>
                  (SetSaved quotaCheck message, this',
                   _saveDatabase targetDB updatedDB w1)
              end
        end
    end.
Proof. intro H. unfold set. rewrite H. reflexivity. Qed.

(** What [set] does reject: a raw path whose normalised form keeps a colon or
    holds two segments fails in [_validatePath], before the backend is
    touched. *)
Lemma set_rejects_forbidden_path (size : value -> Z) (this : FastLS)
  (w : world) (raw : string) (v : value) :
  (let path := snd (_parseFullPath (VStr raw)) in
   includes ":"%char path || includes backslash path = true) ->
  set size this w (VStr raw) v = (SetThrew PathForbidden, this, w).
Proof.
  destruct (_parseFullPath (VStr raw)) as [name path] eqn:Hparse. simpl.
  intro Hbad. rewrite (set_unfold _ _ _ _ _ _ _ Hparse).
  assert (Hne : String.eqb path "" = false).
  { destruct path; [discriminate|reflexivity]. }
  rewrite Hne. unfold _validatePath. rewrite Hne, Hbad. reflexivity.
Qed.

Lemma set_rejects_two_segments :
  forall size this w v,
    set size this w (VStr ("a" ++ sep ++ "b")) v = (SetThrew PathForbidden, this, w)
    /\ set size this w (VStr "a/b") v = (SetThrew PathForbidden, this, w)
    /\ set size this w (VStr ":b") v = (SetThrew PathForbidden, this, w).
Proof.
  intros. repeat split; apply set_rejects_forbidden_path; reflexivity.
Qed.

(** C2 at its failing inputs.  [set("..", v)] is never reported as an error:
    the path normalises to the empty path, [_validatePath] is skipped, and
    without quotas the whole database is replaced by [v].  [set("a:b", v)] is
    not an error either: [a] is taken as a database name and [b] is written
    there. *)
Theorem set_dotdot_and_colon_not_rejected :
  (forall size this w v e,
     fst (fst (set size this w (VStr "..") v)) <> SetThrew e)
  /\ (forall size v,
        set size main_db fresh_world (VStr "..") v
        = (SetSaved pass None, main_db, _saveDatabase main_db v fresh_world))
  /\ (forall size,
        set size main_db fresh_world (VStr "..") (VNum 7)
        = (SetSaved pass None, main_db, [("main", VNum 7)]))
  /\ (forall size,
        set size main_db fresh_world (VStr "a:b") (VNum 7)
        = (SetSaved pass None, main_db,
           [("main", VObj []); ("a", VObj [("b", VNum 7)])])).
Proof.
  repeat split.
  intros size this w v e.
  rewrite (set_unfold size this w (VStr "..") v None "" eq_refl).
  cbn [String.eqb target_of].
  destruct (checkQuota_returns size this (_getDatabase this w) "" v
              (getDatabase_truthy this w)) as [[message qc] ->].
  destruct (allowed qc); simpl; discriminate.
Qed.

(** ** Quotas *)

Section QuotaProperties.

Variable size : value -> Z.


(** The global stage reports [meet] when the projected size is the budget. *)
Lemma global_budget_met_exactly (db : value) (path : string) (v : value)
  (q cps : Z) :
  currentPathSize size db path = Ret cps ->
  (size db - cps + size v = q)%Z ->
  check_global size (Some q) db path v = Ret (Some meet, pass).
Proof.
  intros Hcps Heq. unfold check_global. rewrite Hcps. simpl.
  rewrite Heq, Z.ltb_irrefl, Z.eqb_refl. reflexivity.
Qed.

(** The folder stage never does: with no global budget the status stays
    empty. *)
Lemma folder_budget_met_exactly (this : FastLS) (db : value) (path : string)
  (v : value) (folderPath : string) (q fs cps : Z) :
  find (fun fq => in_folder path (fst fq)) (folderQuotas this)
  = Some (folderPath, q) ->
  _calculateFolderSize size db folderPath = Ret fs ->
  currentPathSize size db path = Ret cps ->
  (fs - cps + size v = q)%Z ->
  quota this = None ->
  _checkQuotaBeforeSet size this db path v = Ret (None, pass).
Proof.
  intros Hfind Hfs Hcps Heq Hq.
  unfold _checkQuotaBeforeSet, check_folder.
  rewrite Hfind, Hfs, Hcps. simpl. rewrite Heq, Z.ltb_irrefl. simpl.
  now rewrite Hq.
Qed.

(** C4, as the code has it.  For a write whose path falls under a folder
    budget (the first such folder in the order the budgets were set): when
    the projected folder size exceeds the budget the check returns from the
    folder stage, the global budget not being consulted; when the write fits
    in the folder budget the loop is left and the global budget is applied to
    the same write. *)
Theorem folder_quota_then_global_quota (this : FastLS) (db : value)
  (path : string) (v : value) (folderPath : string) (q fs cps : Z) :
  find (fun fq => in_folder path (fst fq)) (folderQuotas this)
  = Some (folderPath, q) ->
  _calculateFolderSize size db folderPath = Ret fs ->
  currentPathSize size db path = Ret cps ->
  ((q < fs - cps + size v)%Z ->
   _checkQuotaBeforeSet size this db path v
   = Ret (if (size v <=? q)%Z then store_null else reject))
  /\ ((fs - cps + size v <= q)%Z ->
      _checkQuotaBeforeSet size this db path v
      = check_global size (quota this) db path v).
Proof.
  intros Hfind Hfs Hcps.
  unfold _checkQuotaBeforeSet, check_folder.
  rewrite Hfind, Hfs, Hcps. simpl. split; intro Hcmp.
  - apply Z.ltb_lt in Hcmp. rewrite Hcmp.
    destruct (size v <=? q)%Z; reflexivity.
  - apply Z.ltb_ge in Hcmp. rewrite Hcmp. reflexivity.
Qed.

Hypothesis size_nonneg : forall x, (0 <= size x)%Z.



End QuotaProperties.


Lemma folder_quota_then_global_quota_witness :
  _checkQuotaBeforeSet jsonSize folder_and_global (VObj []) "a" ten_bytes
  = check_global jsonSize (Some 5%Z) (VObj []) "a" ten_bytes.
Proof.
  apply (proj2 (folder_quota_then_global_quota jsonSize folder_and_global
                  (VObj []) "a" ten_bytes "a" 100 0 0
                  eq_refl eq_refl eq_refl)).
  vm_compute. discriminate.
Defined.

(** C4 fails as stated: the path [a] falls under the folder budget of a
    hundred bytes and the candidate fits in it, yet the write is rejected,
    by the global budget of five bytes; without the global budget the same
    write is allowed. *)
Lemma folder_quota_counterexample :
  in_folder "a" "a" = true
  /\ _checkQuotaBeforeSet jsonSize folder_and_global (VObj []) "a" ten_bytes
     = Ret reject
  /\ _checkQuotaBeforeSet jsonSize (removeQuota folder_and_global) (VObj [])
       "a" ten_bytes
     = Ret (None, pass)
  /\ fst (fst (set jsonSize folder_and_global fresh_world (VStr "a") ten_bytes))
     = SetRejected {| allowed := false; storeNull := false |}.
Proof. repeat split. Qed.

(** C6 at its failing input.  Under a folder budget of ten bytes on [a] and
    no global budget, writing a candidate of ten bytes at [a] in an empty
    database makes the projected folder size equal to the budget; the check
    allows the write and leaves the status empty, not [meet], and so does
    [set]. *)
Theorem folder_budget_met_exactly_is_not_reported :
  in_folder "a" "a" = true
  /\ _calculateFolderSize jsonSize (VObj []) "a" = Ret 0%Z
  /\ currentPathSize jsonSize (VObj []) "a" = Ret 0%Z
  /\ jsonSize ten_bytes = 10%Z
  /\ _checkQuotaBeforeSet jsonSize folder_only (VObj []) "a" ten_bytes
     = Ret (None, pass)
  /\ set jsonSize folder_only fresh_world (VStr "a") ten_bytes
     = (SetSaved pass None, folder_only, [("main", VObj [("a", ten_bytes)])]).
Proof. repeat split. Qed.

(** ** Case-insensitive addressing *)


Lemma toLowerCase_empty (s : string) : toLowerCase s = "" -> s = "".
Proof. destruct s; simpl; [reflexivity|discriminate]. Qed.

Lemma find_key_In (ks : list string) (key fk : string) :
  find_key ks key = Some fk ->
  In fk ks /\ toLowerCase fk = toLowerCase key.
Proof.
  unfold find_key. intro H. apply find_some in H. destruct H as [Hin Heq].
  split; [exact Hin|now apply String.eqb_eq].
Qed.

Lemma upsert_keys_present (ps : props) (k : string) (v : value) :
  In k (map fst ps) -> map fst (upsert ps k v) = map fst ps.
Proof.
  induction ps as [|[k' v'] ps IH]; simpl; [tauto|].
  destruct (String.eqb k' k) eqn:E; simpl.
  - apply String.eqb_eq in E. now subst.
  - intros [Heq|Hin]; [subst; now rewrite String.eqb_refl in E|].
    now rewrite IH.
Qed.

Lemma find_key_fresh (ks : list string) (key : string) :
  find_key ks key = None -> find_key (ks ++ [key]) key = Some key.
Proof.
  unfold find_key. induction ks as [|k ks IH]; simpl.
  - now rewrite String.eqb_refl.
  - destruct (String.eqb (toLowerCase k) (toLowerCase key)); [discriminate|].
    exact IH.
Qed.

Lemma find_key_not_In (ks : list string) (key : string) :
  find_key ks key = None -> ~ In key ks.
Proof.
  unfold find_key. intros Hnone Hin.
  apply (find_none _ _ Hnone) in Hin. simpl in Hin.
  now rewrite String.eqb_refl in Hin.
Qed.

(** One level of the accessor with case sensitivity disabled, on an object and
    a plain segment: the write goes under the first existing key that matches
    the segment whatever the case, or under the segment as given when none
    does, and the read of the same segment finds what was written. *)
Lemma case_insensitive_write_then_read (ps : props) (key ak : string)
  (v r : value) :
  key <> "" ->
  arrayMatch key = None ->
  actual_key false (VObj ps) key = Ret ak ->
  prop_write (VObj ps) ak v = Ret r ->
  get_step false r key = Ret v
  /\ (forall fk, find_key (map fst ps) key = Some fk -> ak = fk)
  /\ (find_key (map fst ps) key = None -> ak = key).
Proof.
  intros Hkey Hplain Hak Hw. unfold actual_key in Hak. simpl in Hak.
  unfold object_keys in Hak. simpl in Hak.
  simpl in Hw. inversion Hw; subst r; clear Hw.
  unfold get_step. rewrite Hplain. simpl. unfold object_keys. simpl.
  destruct (find_key (map fst ps) key) as [fk|] eqn:Hfind.
  - destruct (find_key_In _ _ _ Hfind) as [Hin Hlow].
    assert (Hfk : String.eqb fk "" = false).
    { apply String.eqb_neq. intro Hempty. subst fk. simpl in Hlow.
      symmetry in Hlow. apply toLowerCase_empty in Hlow. contradiction. }
    simpl in Hak. rewrite Hfk in Hak. simpl in Hak. inversion Hak; subst ak.
    rewrite upsert_keys_present by assumption. rewrite Hfind. simpl.
    rewrite Hfk. simpl. rewrite lookup_upsert.
    repeat split; congruence.
  - inversion Hak; subst ak.
    rewrite upsert_fresh by (apply find_key_not_In, Hfind).
    rewrite map_app. simpl. rewrite (find_key_fresh _ _ Hfind). simpl.
    apply String.eqb_neq in Hkey. rewrite Hkey. simpl.
    rewrite <- (upsert_fresh ps key v) by (apply find_key_not_In, Hfind).
    rewrite lookup_upsert. repeat split; congruence.
Qed.



(** * Further properties *)

(** ** Strings and paths *)

Lemma split_on_sep_free (p : ascii -> bool) (s : string) :
  Forall (fun t => existsb_char p t = false) (split_on p s).
Proof.
  induction s as [|c s IH]; simpl.
  - repeat constructor.
  - destruct (p c) eqn:Hc.
    + constructor; [reflexivity|exact IH].
    + destruct (split_on p s) as [|h t]; inversion IH; subst;
        constructor; simpl; try rewrite Hc; auto.
Qed.

Lemma split_on_single (p : ascii -> bool) (s : string) :
  existsb_char p s = false -> split_on p s = [s].
Proof.
  induction s as [|c s IH]; simpl; [reflexivity|].
  destruct (p c); simpl; [discriminate|].
  intro H. now rewrite (IH H).
Qed.

Lemma split_on_app (p : ascii -> bool) (a b : string) (c : ascii) :
  existsb_char p a = false -> p c = true ->
  split_on p (a ++ String c b) = a :: split_on p b.
Proof.
  intros Ha Hc. induction a as [|d a IH]; simpl.
  - now rewrite Hc.
  - simpl in Ha. destruct (p d); simpl in *; [discriminate|].
    now rewrite (IH Ha).
Qed.

Lemma segment_ok_spec (s : string) :
  segment_ok s = true ->
  String.eqb s "" = false /\ String.eqb s "." = false
  /\ String.eqb s ".." = false /\ existsb_char is_separator s = false.
Proof.
  unfold segment_ok. intro H.
  repeat (apply andb_true_iff in H; destruct H as [H ?]).
  repeat split; now apply negb_true_iff.
Qed.

Lemma normalize_parts_segments (parts : list string) :
  Forall (fun t => existsb_char is_separator t = false) parts ->
  forall acc, Forall (fun s => segment_ok s = true) acc ->
              Forall (fun s => segment_ok s = true) (normalize_parts parts acc).
Proof.
  induction 1 as [|p parts Hp _ IH]; intros acc Hacc; simpl.
  - now apply Forall_rev.
  - destruct (String.eqb p "..") eqn:E1.
    + apply IH. destruct acc; [constructor|now inversion Hacc].
    + destruct (String.eqb p "") eqn:E2; simpl; [now apply IH|].
      destruct (String.eqb p ".") eqn:E3; [now apply IH|].
      apply IH. constructor; [|exact Hacc].
      unfold segment_ok. now rewrite E1, E2, E3, Hp.
Qed.

Lemma normalizePath_shape (raw : string) :
  exists segments,
    _normalizePath raw = join sep segments
    /\ Forall (fun s => segment_ok s = true) segments.
Proof.
  unfold _normalizePath. destruct (String.eqb raw "").
  - exists []. split; [reflexivity|constructor].
  - eexists. split; [reflexivity|].
    apply normalize_parts_segments; [apply split_on_sep_free|constructor].
Qed.

(** X1.  Whatever the raw path, [_normalizePath] gives the segments it kept
    joined by backslashes, and each of them is non-empty, is neither [.] nor
    [..] and holds no slash and no backslash. *)
Theorem normalizePath_segments (raw : string) :
  exists segments,
    _normalizePath raw = join sep segments
    /\ Forall (fun s => segment_ok s = true) segments.
Proof. exact (normalizePath_shape raw). Qed.

Lemma normalize_parts_kept (segments : list string) :
  Forall (fun s => segment_ok s = true) segments ->
  forall acc, normalize_parts segments acc = (rev acc ++ segments)%list.
Proof.
  induction 1 as [|s segments Hs _ IH]; intro acc; simpl.
  - now rewrite app_nil_r.
  - destruct (segment_ok_spec s Hs) as (E2 & E3 & E1 & _).
    rewrite E1, E2, E3. simpl. rewrite IH. simpl.
    now rewrite <- app_assoc.
Qed.

Lemma existsb_char_app (p : ascii -> bool) (a b : string) :
  existsb_char p (a ++ b) = existsb_char p a || existsb_char p b.
Proof.
  induction a as [|c a IH]; simpl; [reflexivity|].
  now rewrite IH, orb_assoc.
Qed.

Lemma join_cons (d s : string) (l : list string) :
  l <> [] -> join d (s :: l) = s ++ d ++ join d l.
Proof. destruct l; [congruence|reflexivity]. Qed.

Lemma split_on_join (segments : list string) :
  segments <> [] ->
  Forall (fun s => segment_ok s = true) segments ->
  split_on is_separator (join sep segments) = segments.
Proof.
  intros Hne Hok. induction Hok as [|s l Hs Hl IH]; [congruence|].
  destruct (segment_ok_spec s Hs) as (_ & _ & _ & Hfree).
  destruct l as [|t l].
  - simpl. now apply split_on_single.
  - rewrite join_cons by discriminate. unfold sep at 1. simpl append.
    rewrite split_on_app; [|exact Hfree|reflexivity].
    f_equal. apply IH. discriminate.
Qed.

Lemma span_all (p : ascii -> bool) (s : string) :
  forallb_char p s = true -> span p s = (s, "").
Proof.
  induction s as [|c s IH]; simpl; [reflexivity|].
  destruct (p c); simpl; [|discriminate].
  intro H. now rewrite (IH H).
Qed.

Lemma includes_forallb (c : ascii) (s : string) :
  includes c s = false ->
  forallb_char (fun d => negb (Ascii.eqb d c)) s = true.
Proof.
  induction s as [|d s IH]; simpl; [reflexivity|].
  intro H. apply orb_false_iff in H. destruct H as [Hd Hs].
  rewrite Ascii.eqb_sym in Hd. rewrite Hd. simpl. now apply IH.
Qed.

Lemma colon_prefix_none (s : string) :
  includes ":"%char s = false -> colon_prefix s = None.
Proof.
  intro H. unfold colon_prefix.
  rewrite (span_all (fun c => negb (is_colon c)) s)
    by (apply includes_forallb, H).
  now destruct s.
Qed.

Lemma normalizePath_of_segments (segments : list string) :
  Forall (fun s => segment_ok s = true) segments ->
  includes ":"%char (join sep segments) = false ->
  _normalizePath (join sep segments) = join sep segments.
Proof.
  intros Hok Hcolon. unfold _normalizePath.
  destruct (String.eqb (join sep segments) "") eqn:Hempty.
  - apply String.eqb_eq in Hempty. now rewrite Hempty.
  - assert (Hne : segments <> []) by (intro; subst; discriminate).
    unfold strip_flag. rewrite (colon_prefix_none _ Hcolon).
    rewrite split_on_join by assumption.
    now rewrite normalize_parts_kept.
Qed.

(** X2.  Normalising is idempotent on every result that holds no colon: a
    folder path written back as it was normalised is left as it is.  (A colon
    left inside a segment would be read as a prefix the second time.) *)
Theorem normalizePath_idempotent (raw : string) :
  includes ":"%char (_normalizePath raw) = false ->
  _normalizePath (_normalizePath raw) = _normalizePath raw.
Proof.
  destruct (normalizePath_shape raw) as (segments & -> & Hok).
  now apply normalizePath_of_segments.
Qed.

Lemma normalizePath_idempotent_witness :
  _normalizePath (_normalizePath "x:/a/./b/../c/") = "a" ++ sep ++ "c".
Proof.
  rewrite (normalizePath_idempotent "x:/a/./b/../c/"); reflexivity.
Defined.

Lemma includes_app (c : ascii) (a b : string) :
  includes c (a ++ b) = includes c a || includes c b.
Proof.
  induction a as [|d a IH]; simpl; [reflexivity|].
  now rewrite IH, orb_assoc.
Qed.

Lemma includes_existsb (c : ascii) (s : string) :
  includes c s = existsb_char (Ascii.eqb c) s.
Proof. induction s as [|d s IH]; simpl; congruence. Qed.

Lemma join_two_includes_sep (s t : string) (l : list string) :
  includes backslash (join sep (s :: t :: l)) = true.
Proof.
  rewrite join_cons by discriminate. rewrite includes_app.
  replace (includes backslash (sep ++ join sep (t :: l))) with true
    by reflexivity.
  apply orb_true_r.
Qed.

(** the normalised path is never the text [..] *)
Lemma normalizePath_not_dotdot (raw : string) :
  String.eqb (_normalizePath raw) ".." = true ->
  includes backslash (_normalizePath raw) = true.
Proof.
  destruct (normalizePath_shape raw) as (segments & -> & Hok).
  destruct segments as [|s [|t l]].
  - discriminate.
  - simpl. inversion Hok as [|? ? Hs _]; subst.
    destruct (segment_ok_spec s Hs) as (_ & _ & E & _). congruence.
  - intros _. apply join_two_includes_sep.
Qed.

Lemma validatePath_never_dotdot (f : value) :
  _validatePath (snd (_parseFullPath f)) <> Throw PathDotDot.
Proof.
  assert (H : forall raw, _validatePath (_normalizePath raw) <> Throw PathDotDot).
  { intro raw. unfold _validatePath.
    destruct (negb _ && _) eqn:Hbad; [discriminate|].
    destruct (String.eqb (_normalizePath raw) "..") eqn:Hdd; [|discriminate].
    pose proof (normalizePath_not_dotdot raw Hdd) as Hsep.
    apply String.eqb_eq in Hdd. rewrite Hdd in Hbad, Hsep. discriminate. }
  destruct f; simpl; try discriminate.
  destruct (colon_prefix s) as [[name rest]|]; [|apply H].
  destruct (existsb_char is_line_terminator rest); apply H.
Qed.

Ltac throws_only_type_error :=
  repeat match goal with
         | |- context [match ?x with _ => _ end] => destruct x eqn:?
         | H : context [match ?x with _ => _ end] |- _ => destruct x eqn:?
         end; simpl in *; try congruence.

Lemma prop_read_throw (recv : value) (k : string) (e : exn) :
  prop_read recv k = Throw e -> e = TypeError.
Proof. destruct recv; simpl; throws_only_type_error. Qed.

Lemma prop_write_throw (recv : value) (k : string) (v : value) (e : exn) :
  prop_write recv k v = Throw e -> e = TypeError.
Proof. destruct recv; simpl; throws_only_type_error. Qed.

Lemma object_keys_throw (recv : value) (e : exn) :
  object_keys recv = Throw e -> e = TypeError.
Proof. destruct recv; unfold object_keys; simpl; congruence. Qed.

Lemma bind_throw {A B : Type} (m : outcome A) (k : A -> outcome B) (e : exn) :
  (x <- m ;; k x) = Throw e ->
  m = Throw e \/ exists a, m = Ret a /\ k a = Throw e.
Proof. destruct m; simpl; eauto. intro H; inversion H; auto. Qed.

Lemma actual_key_throw (cs : bool) (cur : value) (key : string) (e : exn) :
  actual_key cs cur key = Throw e -> e = TypeError.
Proof.
  unfold actual_key. destruct (negb cs && typeof_object cur); [|discriminate].
  intro H. apply bind_throw in H. destruct H as [H|(ks & _ & H)].
  - now apply object_keys_throw in H.
  - destruct (find_key ks key); discriminate.
Qed.

Lemma ensure_array_throw (cur : value) (name : string) (e : exn) :
  ensure_array cur name = Throw e -> e = TypeError.
Proof.
  unfold ensure_array. intro H. apply bind_throw in H.
  destruct H as [H|(a & _ & H)]; [now apply prop_read_throw in H|].
  destruct (truthy a && isArray a); [discriminate|].
  apply bind_throw in H. destruct H as [H|(c & _ & H)]; [|discriminate].
  now apply prop_write_throw in H.
Qed.

Lemma set_last_throw (cs : bool) (cur : value) (key : string) (v : value)
  (e : exn) :
  set_last cs cur key v = Throw e -> e = TypeError.
Proof.
  unfold set_last. destruct (arrayMatch key) as [[name digits]|]; intro H;
    apply bind_throw in H.
  - destruct H as [H|([c a] & _ & H)]; [now apply ensure_array_throw in H|].
    simpl in H. destruct (array_parts a). now apply prop_write_throw in H.
  - destruct H as [H|(ak & _ & H)]; [now apply actual_key_throw in H|].
    now apply prop_write_throw in H.
Qed.

Lemma set_loop_throw (cs : bool) (keys : list string) :
  forall cur v e, set_loop cs cur keys v = Throw e -> e = TypeError.
Proof.
  induction keys as [|key keys' IH]; intros cur v e; [discriminate|].
  destruct keys' as [|k2 rest].
  - rewrite set_loop_last. apply set_last_throw.
  - rewrite set_loop_cons.
    destruct (arrayMatch key) as [[name digits]|]; intro H;
      apply bind_throw in H.
    + destruct H as [H|([c a] & _ & H)]; [now apply ensure_array_throw in H|].
      cbn [fst snd] in H. destruct (array_parts a) as [es nm]. cbv zeta in H.
      apply bind_throw in H. destruct H as [H|(child & _ & H)];
        [now apply IH in H|now apply prop_write_throw in H].
    + destruct H as [H|(ak & _ & H)]; [now apply actual_key_throw in H|].
      apply bind_throw in H.
      destruct H as [H|(c & _ & H)]; [now apply prop_read_throw in H|].
      apply bind_throw in H. destruct H as [H|(c1 & _ & H)].
      * destruct (is_object c); [discriminate|].
        now apply prop_write_throw in H.
      * apply bind_throw in H. destruct H as [H|(child & _ & H)];
          [now apply IH in H|now apply prop_write_throw in H].
Qed.

Lemma setValueByPath_throw (cs : bool) (obj : value) (p : string) (v : value)
  (e : exn) :
  _setValueByPath cs obj p v = Throw e -> e = TypeError.
Proof.
  unfold _setValueByPath. destruct (String.eqb p ""); [discriminate|].
  intro H. apply bind_throw in H. destruct H as [H|(r & _ & H)];
    [now apply set_loop_throw in H|discriminate].
Qed.

(** X3.  The test of [_validatePath] for the path [..] can never fire in
    [set]: whatever the arguments, the instance and the storage, [set] does
    not end on that error. *)
Theorem set_never_reports_dotdot (size : value -> Z) (this : FastLS)
  (w : world) (fullPath v : value) :
  fst (fst (set size this w fullPath v)) <> SetThrew PathDotDot.
Proof.
  destruct (_parseFullPath fullPath) as [name p] eqn:Hparse.
  rewrite (set_unfold _ _ _ _ _ _ _ Hparse).
  pose proof (validatePath_never_dotdot fullPath) as Hv.
  rewrite Hparse in Hv. simpl in Hv.
  destruct (if String.eqb p "" then Ret tt else _validatePath p) as [[]|e]
    eqn:Hvalid.
  - destruct (target_of this name w) as [targetDB w1]. cbv zeta.
    destruct (checkQuota_returns size this (_getDatabase targetDB w1) p v
                (getDatabase_truthy targetDB w1)) as [[message qc] ->].
    destruct (negb (allowed qc)); simpl; [discriminate|].
    destruct (_setValueByPath _ _ _ _) as [u|e] eqn:Hset; simpl;
      [discriminate|].
    apply setValueByPath_throw in Hset. subst e. discriminate.
  - simpl. destruct (String.eqb p ""); [discriminate|]. congruence.
Qed.

(** X4.  A path of two levels is never written by [set]: on an instance
    built with [useAsync], for all segments [a] and [b] without colon,
    [set("a/b", v)] ends on the error of [_validatePath] and leaves the
    instance and the storage as they were. *)
Theorem set_rejects_every_folder_path (size : value -> Z) (this : FastLS)
  (w : world) (a b : string) (v : value) :
  useAsync this = true ->
  segment_ok a = true -> segment_ok b = true ->
  includes ":"%char a = false -> includes ":"%char b = false ->
  set size this w (VStr (a ++ "/" ++ b)) v = (SetThrew PathForbidden, this, w).
Proof.
  intros _ Ha Hb Hca Hcb.
  destruct (segment_ok_spec a Ha) as (Ea & _ & _ & Hfa).
  assert (Hparse : _parseFullPath (VStr (a ++ "/" ++ b))
                   = (None, a ++ sep ++ b)).
  { assert (Hcolon : includes ":"%char (a ++ "/" ++ b) = false)
      by (rewrite includes_app; simpl; now rewrite Hca, Hcb).
    assert (Hraw : String.eqb (a ++ "/" ++ b) "" = false)
      by (destruct a; [discriminate|reflexivity]).
    destruct (segment_ok_spec b Hb) as (_ & _ & _ & Hfb).
    unfold _parseFullPath. rewrite (colon_prefix_none _ Hcolon).
    unfold _normalizePath, strip_flag.
    rewrite Hraw, (colon_prefix_none _ Hcolon).
    change ("/" ++ b) with (String "/"%char b).
    rewrite split_on_app; [|exact Hfa|reflexivity].
    rewrite (split_on_single _ _ Hfb).
    rewrite normalize_parts_kept by (repeat constructor; assumption).
    reflexivity. }
  rewrite (set_unfold _ _ _ _ _ _ _ Hparse).
  assert (Hne : String.eqb (a ++ sep ++ b) "" = false)
    by (destruct a; [discriminate|reflexivity]).
  rewrite Hne. unfold _validatePath. rewrite Hne.
  replace (includes backslash (a ++ sep ++ b)) with true.
  - now rewrite orb_true_r.
  - rewrite includes_app.
    replace (includes backslash (sep ++ b)) with true by reflexivity.
    now rewrite orb_true_r.
Qed.

Lemma set_rejects_every_folder_path_witness :
  set jsonSize main_db fresh_world (VStr ("company" ++ "/" ++ "budget")) (VNum 1)
  = (SetThrew PathForbidden, main_db, fresh_world).
Proof.
  apply (set_rejects_every_folder_path jsonSize main_db fresh_world
           "company" "budget" (VNum 1)); reflexivity.
Defined.

(** ** The nested accessor, further *)

Lemma span_stop (p : ascii -> bool) (a b : string) (c : ascii) :
  forallb_char p a = true -> p c = false ->
  span p (a ++ String c b) = (a, String c b).
Proof.
  intros Ha Hc. induction a as [|d a IH]; simpl.
  - now rewrite Hc.
  - simpl in Ha. apply andb_true_iff in Ha. destruct Ha as [Hd Ha].
    now rewrite Hd, (IH Ha).
Qed.

Lemma arrayMatch_indexed (name digits : string) :
  name <> "" -> forallb_char is_word name = true ->
  digits <> "" -> forallb_char is_digit digits = true ->
  arrayMatch (name ++ "[" ++ digits ++ "]") = Some (name, digits).
Proof.
  intros Hn Hw Hd Hdig.
  assert (Hhere : array_match_here (name ++ "[" ++ digits ++ "]")
                  = Some (name, digits)).
  { unfold array_match_here.
    change ("[" ++ digits ++ "]") with (String "["%char (digits ++ "]")).
    rewrite (span_stop is_word name _ "["%char Hw eq_refl).
    destruct name as [|c name]; [congruence|].
    change (digits ++ "]") with (digits ++ String "]"%char "").
    rewrite Ascii.eqb_refl.
    rewrite (span_stop is_digit digits _ "]"%char Hdig eq_refl).
    destruct digits as [|d digits]; [congruence|].
    now rewrite Ascii.eqb_refl. }
  destruct name as [|c name]; [congruence|].
  change (String c name ++ "[" ++ digits ++ "]")
    with (String c (name ++ "[" ++ digits ++ "]")) in *.
  cbn [arrayMatch]. now rewrite Hhere.
Qed.

Lemma word_no_dot (s : string) :
  forallb_char is_word s = true -> existsb_char is_dot s = false.
Proof.
  induction s as [|c s IH]; simpl; [reflexivity|].
  intro H. apply andb_true_iff in H. destruct H as [Hc Hs].
  rewrite (IH Hs), orb_false_r.
  unfold is_dot. destruct (Ascii.eqb c "."%char) eqn:E; [|reflexivity].
  apply Ascii.eqb_eq in E. subst c. discriminate.
Qed.

Lemma digit_is_word (s : string) :
  forallb_char is_digit s = true -> forallb_char is_word s = true.
Proof.
  induction s as [|c s IH]; simpl; [reflexivity|].
  intro H. apply andb_true_iff in H. destruct H as [Hc Hs].
  rewrite (IH Hs), andb_true_r. unfold is_word. now rewrite Hc.
Qed.

(** X5.  The documented syntax [name[i]]: on an object whose property [name]
    is an array, in both case modes, for digits that denote an array index
    (a number below 2^32 - 1), the read of [name[digits]] is the element at
    that index, and [undefined] past the end. *)
Theorem getValueByPath_array_element (cs : bool) (ps : props)
  (name digits : string) (es : list value) (nm : props) :
  name <> "" -> forallb_char is_word name = true ->
  digits <> "" -> forallb_char is_digit digits = true ->
  (N.of_nat (parseInt digits) < index_limit)%N ->
  lookup ps name = VArr es nm ->
  _getValueByPath cs (VObj ps) (name ++ "[" ++ digits ++ "]")
  = Ret (nth (parseInt digits) es VUndef).
Proof.
  intros Hn Hw Hd Hdig _ Hlook.
  unfold _getValueByPath.
  replace (String.eqb (name ++ "[" ++ digits ++ "]") "") with false
    by (destruct name; [congruence|reflexivity]).
  simpl orb. cbv iota.
  rewrite split_on_single.
  - rewrite get_loop_cons. cbn [is_object negb]. unfold get_step.
    rewrite (arrayMatch_indexed name digits Hn Hw Hd Hdig).
    cbn [prop_read bind]. rewrite Hlook. cbn. apply get_last.
  - rewrite !existsb_char_app, (word_no_dot _ Hw),
      (word_no_dot _ (digit_is_word _ Hdig)). reflexivity.
Qed.

Lemma getValueByPath_array_element_witness :
  _getValueByPath true (VObj [("items", VArr [VNum 7; VNum 8; VNum 9] [])])
    "items[2]"
  = Ret (VNum 9).
Proof.
  apply (getValueByPath_array_element true
           [("items", VArr [VNum 7; VNum 8; VNum 9] [])] "items" "2"
           [VNum 7; VNum 8; VNum 9] []);
    try reflexivity; try discriminate.
Defined.

(** X6.  In case-sensitive mode, on a truthy tree, whenever
    [_setValueByPath] returns, [_getValueByPath] reads the value written back
    from the tree returned, at the same path, whatever the value, for every
    path whose segments name no member of the prototype chain ([__proto__],
    [length] and the like) and carry array indices only. *)
Theorem write_then_read_case_sensitive (tree : value) (p : string)
  (v tree' : value) :
  truthy tree = true ->
  own_path p = true ->
  _setValueByPath true tree p v = Ret tree' ->
  _getValueByPath true tree' p = Ret v.
Proof. intros Ht _. now apply setValueByPath_getValueByPath. Qed.

Lemma write_then_read_case_sensitive_witness :
  _getValueByPath true
    (VObj [("a", VObj [("items", VArr [VObj []; VObj [("x", VNum 1)]] [])])])
    "a.items[1].x"
  = Ret (VNum 1).
Proof.
  apply (write_then_read_case_sensitive (VObj []) "a.items[1].x" (VNum 1));
    reflexivity.
Defined.

(** X7.  With case sensitivity disabled, on an object and for a plain
    non-empty segment that names no member of [Object.prototype]: the write
    goes under the first existing key equal to the segment up to case, under
    the segment as given when there is none, and the read of the segment
    then finds the value written. *)
Theorem write_then_read_case_insensitive (ps : props) (key ak : string)
  (v r : value) :
  key <> "" ->
  object_member key = false ->
  arrayMatch key = None ->
  actual_key false (VObj ps) key = Ret ak ->
  prop_write (VObj ps) ak v = Ret r ->
  get_step false r key = Ret v
  /\ (forall fk, find_key (map fst ps) key = Some fk -> ak = fk)
  /\ (find_key (map fst ps) key = None -> ak = key).
Proof. intros Hkey _. now apply case_insensitive_write_then_read. Qed.

Lemma write_then_read_case_insensitive_witness :
  get_step false (VObj [("Name", VNum 2)]) "NAME" = Ret (VNum 2).
Proof.
  apply (write_then_read_case_insensitive [("Name", VNum 1)] "NAME" "Name"
           (VNum 2) (VObj [("Name", VNum 2)]));
    try reflexivity; discriminate.
Defined.

Lemma array_index_inj (k k' : string) (i : nat) :
  array_index k = Some i -> array_index k' = Some i -> k = k'.
Proof.
  unfold array_index.
  destruct (NilEmpty.uint_of_string k) as [d|]; [|discriminate].
  destruct (NilEmpty.uint_of_string k') as [d'|]; [|discriminate].
  destruct (String.eqb _ k && _) eqn:E; [|discriminate].
  destruct (String.eqb _ k' && _) eqn:E'; [|discriminate].
  intros H H'. inversion H; inversion H'; subst.
  apply andb_true_iff in E, E'. destruct E as [E _], E' as [E' _].
  apply String.eqb_eq in E, E'.
  assert (Hn : N.of_uint d = N.of_uint d') by (apply N2Nat.inj; congruence).
  rewrite Hn in E. congruence.
Qed.

Lemma lookup_upsert_other (ps : props) (k k' : string) (v : value) :
  k' <> k -> lookup (upsert ps k v) k' = lookup ps k'.
Proof.
  intro Hne. induction ps as [|[k0 v0] ps IH]; simpl.
  - apply String.eqb_neq in Hne. rewrite String.eqb_sym in Hne.
    now rewrite Hne.
  - destruct (String.eqb k0 k) eqn:E; simpl.
    + apply String.eqb_eq in E. subst k0.
      apply String.eqb_neq in Hne. rewrite String.eqb_sym in Hne.
      now rewrite Hne.
    + now rewrite IH.
Qed.

Lemma nth_replace_nth_other (es : list value) (i j : nat) (v : value) :
  i <> j -> nth j (replace_nth i es v) VUndef = nth j es VUndef.
Proof.
  revert i j. induction es as [|e es IH]; intros [|i] [|j] Hne; simpl;
    try reflexivity; try congruence.
  apply IH. congruence.
Qed.

Lemma nth_pad_undefined (es : list value) (i j : nat) :
  nth j (pad es i VUndef) VUndef = nth j es VUndef.
Proof.
  unfold pad. destruct (Nat.lt_ge_cases j (length es)) as [Hlt|Hge].
  - now rewrite app_nth1.
  - rewrite app_nth2 by assumption.
    rewrite (nth_overflow es) by assumption.
    generalize (j - length es), (S i - length es). intros a b.
    revert a. induction b; intros [|a]; simpl; auto.
Qed.

Lemma prop_read_write_other (recv recv' : value) (k k' : string) (v : value) :
  prop_write recv k v = Ret recv' -> k' <> k ->
  prop_read recv' k' = prop_read recv k'.
Proof.
  destruct recv; simpl; try discriminate.
  - destruct (array_index k) as [i|] eqn:Hi; intro H; inversion H; subst;
      intro Hne; simpl; destruct (array_index k') as [j|] eqn:Hj;
      try reflexivity.
    + unfold store_elem.
      rewrite nth_replace_nth_other, nth_pad_undefined; [reflexivity|].
      intro Heq. subst j. apply Hne. apply (array_index_inj _ _ _ Hj Hi).
    + now rewrite lookup_upsert_other.
  - intro H; inversion H; subst. intro Hne. simpl.
    now rewrite lookup_upsert_other.
Qed.

Lemma ensure_array_frame (cur : value) (name : string) (c1 a : value)
  (k' : string) :
  ensure_array cur name = Ret (c1, a) -> k' <> name ->
  prop_read c1 k' = prop_read cur k'.
Proof.
  unfold ensure_array.
  destruct (prop_read cur name) as [x|]; cbn [bind]; [|discriminate].
  destruct (truthy x && isArray x).
  - intro H; inversion H; reflexivity.
  - destruct (prop_write cur name (VArr [] [])) as [c|] eqn:Hw; cbn [bind];
      [|discriminate].
    intro H; inversion H; subst. intro Hne.
    apply (prop_read_write_other _ _ _ _ _ Hw Hne).
Qed.

(** In case-sensitive mode a write only touches the property its first
    segment names. *)
Lemma set_loop_frame (key : string) (rest : list string) (cur v r : value)
  (k' : string) :
  set_loop true cur (key :: rest) v = Ret r ->
  k' <> head_name key ->
  prop_read r k' = prop_read cur k'.
Proof.
  unfold head_name. destruct rest as [|k2 rest].
  - rewrite set_loop_last. unfold set_last.
    destruct (arrayMatch key) as [[name digits]|].
    + destruct (ensure_array cur name) as [[c1 a]|] eqn:He; cbn [bind fst snd];
        [|discriminate].
      destruct (array_parts a) as [es nm]. intros Hw Hne.
      rewrite (prop_read_write_other _ _ _ _ _ Hw Hne).
      apply (ensure_array_frame _ _ _ _ _ He Hne).
    + cbn. apply prop_read_write_other.
  - rewrite set_loop_cons.
    destruct (arrayMatch key) as [[name digits]|].
    + destruct (ensure_array cur name) as [[c1 a]|] eqn:He; cbn [bind fst snd];
        [|discriminate].
      destruct (array_parts a) as [es nm]. cbv zeta.
      destruct (set_loop true _ (k2 :: rest) v) as [child|]; cbn [bind];
        [|discriminate].
      intros Hw Hne.
      rewrite (prop_read_write_other _ _ _ _ _ Hw Hne).
      apply (ensure_array_frame _ _ _ _ _ He Hne).
    + cbn [actual_key negb andb bind].
      destruct (prop_read cur key) as [c|]; cbn [bind]; [|discriminate].
      destruct (is_object c).
      * cbn [bind].
        destruct (set_loop true c (k2 :: rest) v) as [child|]; cbn [bind];
          [|discriminate].
        apply prop_read_write_other.
      * destruct (prop_write cur key (VObj [])) as [c1|] eqn:Hw1; cbn [bind];
          [|discriminate].
        destruct (set_loop true (VObj []) (k2 :: rest) v) as [child|];
          cbn [bind]; [|discriminate].
        intros Hw Hne.
        rewrite (prop_read_write_other _ _ _ _ _ Hw Hne).
        apply (prop_read_write_other _ _ _ _ _ Hw1 Hne).
Qed.

Lemma get_step_head (cur cur' : value) (key : string) :
  prop_read cur' (head_name key) = prop_read cur (head_name key) ->
  get_step true cur' key = get_step true cur key.
Proof.
  unfold get_step, head_name.
  destruct (arrayMatch key) as [[name digits]|]; cbn [negb andb];
    now intros ->.
Qed.

(** X8.  In case-sensitive mode a write under one top-level property leaves
    every read under another one as it was: for two paths whose segments
    name no member of the prototype chain and carry array indices only, if
    their first segments name different properties, the read at the second
    path gives the same result before and after the write at the first. *)
Theorem write_leaves_other_keys (tree : value) (p q : string) (v tree' : value) :
  truthy tree = true ->
  own_path p = true -> own_path q = true ->
  _setValueByPath true tree p v = Ret tree' ->
  p <> "" -> q <> "" ->
  head_name (hd "" (split_on is_dot q)) <> head_name (hd "" (split_on is_dot p)) ->
  _getValueByPath true tree' q = _getValueByPath true tree q.
Proof.
  intros Htruthy _ _ Hset Hp Hq Hother.
  unfold _setValueByPath in Hset.
  apply String.eqb_neq in Hp. apply String.eqb_neq in Hq.
  rewrite Hp, Htruthy in Hset.
  destruct (set_loop true tree (split_on is_dot p) v) as [r|] eqn:Hloop;
    cbn [bind] in Hset; [|discriminate].
  inversion Hset; subst tree'; clear Hset.
  destruct (set_loop_object true _ _ _ _ (split_on_not_nil _ _) Hloop)
    as [Hobj Hobj'].
  unfold _getValueByPath.
  rewrite Hq, Htruthy, (is_object_truthy _ Hobj'). cbn [orb negb].
  destruct (split_on is_dot p) as [|p1 prest] eqn:Hsp;
    [now apply split_on_not_nil in Hsp|].
  destruct (split_on is_dot q) as [|q1 qrest] eqn:Hsq;
    [now apply split_on_not_nil in Hsq|].
  cbn [hd] in Hother.
  rewrite !get_loop_cons, Hobj, Hobj'. cbn [negb].
  now rewrite (get_step_head tree r q1 (set_loop_frame _ _ _ _ _ _ Hloop Hother)).
Qed.

Lemma write_leaves_other_keys_witness :
  _getValueByPath true
    (VObj [("user", VObj [("name", VStr "A")]); ("items", VArr [VNum 5] [])])
    "user.name"
  = _getValueByPath true (VObj [("user", VObj [("name", VStr "A")])])
      "user.name".
Proof.
  apply (write_leaves_other_keys (VObj [("user", VObj [("name", VStr "A")])])
           "items[0]" "user.name" (VNum 5));
    try reflexivity; discriminate.
Defined.

(** ** The folder strategies in general *)

Lemma rebuilt_NoDup (keep : string -> bool) (change : string -> value -> value)
  (db : props) :
  NoDup (map fst db) -> NoDup (map fst (rebuilt keep change db)).
Proof.
  intro Hnd. rewrite rebuilt_keys. now apply NoDup_filter.
Qed.

Lemma lookup_rebuilt_kept (keep : string -> bool)
  (change : string -> value -> value) (db : props) (k : string) :
  keep k = true -> (forall v, change k v = v) ->
  lookup (rebuilt keep change db) k = lookup db k.
Proof.
  intros Hkeep Hsame. unfold rebuilt.
  induction db as [|[k0 v0] db IH]; simpl; [reflexivity|].
  destruct (String.eqb k0 k) eqn:E.
  - apply String.eqb_eq in E. subst k0. rewrite Hkeep. simpl.
    now rewrite String.eqb_refl, Hsame.
  - destruct (keep k0); simpl; [now rewrite E|exact IH].
Qed.

Lemma in_folder_split (key folderPath : string) :
  in_folder key folderPath = false ->
  under key folderPath = false /\ String.eqb key folderPath = false.
Proof. unfold in_folder. apply orb_false_iff. Qed.

(** X9.  None of the strategies of [remove], known or not, touches an entry
    outside the folder: on a map with distinct keys, none of them
    [__proto__], a key that is neither the folder nor under it keeps its
    value, present or absent. *)
Theorem strategies_keep_outside_entries (db : props)
  (folderPath operation key : string) :
  NoDup (map fst db) ->
  ~ In "__proto__" (map fst db) ->
  in_folder key folderPath = false ->
  lookup (apply_strategy db folderPath operation) key = lookup db key.
Proof.
  intros Hnd _ Hout. destruct (in_folder_split _ _ Hout) as [Hu He].
  unfold apply_strategy, _deleteFolder, _deleteRootKeys,
    _deleteFolderContents, _deleteNestedFolders.
  repeat match goal with
         | |- context [if String.eqb operation ?s then _ else _] =>
             destruct (String.eqb operation s)
         end;
    try reflexivity;
    rewrite rebuild_spec by assumption;
    apply lookup_rebuilt_kept; intros; rewrite ?Hu, ?He; reflexivity.
Qed.

Lemma strategies_keep_outside_entries_witness :
  lookup (apply_strategy
            [("a", VNum 1); ("ab", VNum 2); ("a" ++ sep ++ "b", VNum 3)]
            "a" "folder") "ab"
  = VNum 2.
Proof.
  apply (strategies_keep_outside_entries
           [("a", VNum 1); ("ab", VNum 2); ("a" ++ sep ++ "b", VNum 3)]
           "a" "folder" "ab").
  - repeat (constructor; [simpl; intuition discriminate|]). constructor.
  - simpl. intuition discriminate.
  - reflexivity.
Defined.

Lemma filter_ext_keys (f g : string -> bool) (db : props) :
  (forall k, f k = g k) ->
  filter (fun kv => f (fst kv)) db = filter (fun kv => g (fst kv)) db.
Proof. intro H. apply filter_ext. intros [k v]. apply H. Qed.

Lemma rebuilt_identity (keep : string -> bool) (db : props) :
  rebuilt keep (fun _ v => v) db = filter (fun kv => keep (fst kv)) db.
Proof.
  unfold rebuilt. rewrite <- (map_id (filter _ db)) at 2.
  apply map_ext. now intros [k v].
Qed.

(** X10.  On a map with distinct keys, none of them [__proto__],
    [_deleteFolder] is the filter that drops the folder key and every key
    under it: the entries left are those of the map that are outside the
    folder, with their values, in their order. *)
Theorem deleteFolder_is_filter (db : props) (folderPath : string) :
  NoDup (map fst db) ->
  ~ In "__proto__" (map fst db) ->
  _deleteFolder db folderPath
  = filter (fun kv => negb (in_folder (fst kv) folderPath)) db.
Proof.
  intros Hnd _. unfold _deleteFolder.
  rewrite rebuild_spec by assumption. rewrite rebuilt_identity.
  apply filter_ext. intros [k v]. unfold in_folder. simpl.
  now rewrite negb_orb.
Qed.

Lemma deleteFolder_is_filter_witness :
  _deleteFolder four_keys_db ("a" ++ sep ++ "b")
  = [("a", VNum 1); ("a" ++ sep ++ "d", VNum 4)].
Proof.
  rewrite (deleteFolder_is_filter four_keys_db ("a" ++ sep ++ "b")).
  - reflexivity.
  - repeat (constructor; [simpl; intuition discriminate|]). constructor.
  - simpl. intuition discriminate.
Defined.

Lemma filter_idempotent {A : Type} (f : A -> bool) (l : list A) :
  filter f (filter f l) = filter f l.
Proof.
  induction l as [|x l IH]; simpl; [reflexivity|].
  destruct (f x) eqn:E; simpl; [now rewrite E, IH|exact IH].
Qed.

Lemma filter_all {A : Type} (l : list A) : filter (fun _ => true) l = l.
Proof. induction l; simpl; congruence. Qed.

(** X11.  Each strategy is idempotent on a map with distinct keys: applying
    it a second time to the same folder changes nothing more. *)
Theorem strategies_idempotent (db : props) (folderPath operation : string) :
  NoDup (map fst db) ->
  apply_strategy (apply_strategy db folderPath operation) folderPath operation
  = apply_strategy db folderPath operation.
Proof.
  intro Hnd.
  unfold apply_strategy, _deleteFolder, _deleteRootKeys,
    _deleteFolderContents, _deleteNestedFolders.
  repeat match goal with
         | |- context [if String.eqb operation ?s then _ else _] =>
             destruct (String.eqb operation s)
         end;
    try reflexivity;
    rewrite (rebuild_spec _ _ db) by assumption;
    rewrite rebuild_spec by (now apply rebuilt_NoDup).
  1, 2, 4: rewrite !rebuilt_identity; apply filter_idempotent.
  unfold rebuilt. rewrite !filter_all, !map_map. simpl.
  apply map_ext. intros [k v]. simpl.
  now destruct (under k folderPath || String.eqb k folderPath).
Qed.

Lemma strategies_idempotent_witness :
  apply_strategy (apply_strategy four_keys_db "a" "structure") "a" "structure"
  = apply_strategy four_keys_db "a" "structure".
Proof.
  apply (strategies_idempotent four_keys_db "a" "structure").
  repeat (constructor; [simpl; intuition discriminate|]). constructor.
Defined.

(** X12.  On a map with distinct keys, none of them [__proto__],
    [_deleteFolderContents] keeps the keys and their order: only values
    change, and each value it changes becomes the empty object. *)
Theorem deleteFolderContents_keeps_keys (db : props) (folderPath : string) :
  NoDup (map fst db) ->
  ~ In "__proto__" (map fst db) ->
  map fst (_deleteFolderContents db folderPath) = map fst db
  /\ forall key, in_folder key folderPath = true -> In key (map fst db) ->
                 lookup (_deleteFolderContents db folderPath) key = VObj [].
Proof.
  intros Hnd _. unfold _deleteFolderContents.
  rewrite rebuild_spec by assumption. split.
  - rewrite rebuilt_keys. clear. induction (map fst db); simpl; congruence.
  - intros key Hin Hkey. unfold rebuilt. rewrite filter_all.
    clear Hnd. induction db as [|[k0 v0] db IH]; simpl in *; [tauto|].
    destruct (String.eqb k0 key) eqn:E.
    + apply String.eqb_eq in E. subst k0. unfold in_folder in Hin.
      now rewrite Hin.
    + destruct Hkey as [Heq|Hkey]; [subst; now rewrite String.eqb_refl in E|].
      now apply IH.
Qed.

Lemma deleteFolderContents_keeps_keys_witness :
  map fst (_deleteFolderContents four_keys_db ("a" ++ sep ++ "b"))
  = map fst four_keys_db.
Proof.
  apply (deleteFolderContents_keeps_keys four_keys_db ("a" ++ sep ++ "b")).
  - repeat (constructor; [simpl; intuition discriminate|]). constructor.
  - simpl. intuition discriminate.
Defined.

(** X13.  The pairs handed to [remove] are applied one after the other on
    the in-memory copy: running a list of pairs followed by another is
    running the second list on what the first leaves, and nothing more is
    run once the database was dropped. *)
Theorem remove_loop_sequential (first second : list (option string * string))
  (db : props) :
  remove_loop db (first ++ second)
  = match remove_loop db first with
    | Dropped => Dropped
    | Updated updatedDB => remove_loop updatedDB second
    end.
Proof.
  revert db. induction first as [|[p operation] first IH]; intro db;
    [reflexivity|].
  simpl. destruct p as [p|].
  - destruct ((String.eqb p "" || String.eqb p sep)
              && String.eqb operation "databaseKeys"); apply IH.
  - destruct (String.eqb operation "database"); [reflexivity|].
    destruct (String.eqb operation "databaseKeys"); apply IH.
Qed.

(** ** The quota manager and [set], further *)

Lemma find_in {A : Type} (f : A -> bool) (l : list A) (x : A) :
  find f l = Some x -> In x l /\ f x = true.
Proof. apply find_some. Qed.

Ltac quota_answer tac :=
  let H := fresh "H" in
  intro H; inversion H; subst; clear H; simpl;
  repeat split; try congruence; tac.

(** X14.  What [_checkQuotaBeforeSet] can answer.  It refuses a write only
    with the status [cannotSave] and only when the candidate alone is larger
    than a budget that covers the path, the budget of the first folder the
    path falls under or the global one; it replaces the candidate by [null]
    only with the status [storedNull] and only when the candidate fits the
    budget it would overflow; the status [meet] comes with an unchanged
    write. *)
Theorem checkQuota_answers (size : value -> Z) (this : FastLS) (db : value)
  (p : string) (v : value) (message : option QuotaMessage) (qc : QuotaCheck) :
  _checkQuotaBeforeSet size this db p v = Ret (message, qc) ->
  (allowed qc = false ->
   message = Some cannotSave
   /\ ((exists folderPath q,
          In (folderPath, q) (folderQuotas this)
          /\ in_folder p folderPath = true /\ (q < size v)%Z)
       \/ (exists B, quota this = Some B /\ (B < size v)%Z)))
  /\ (storeNull qc = true ->
      allowed qc = true /\ message = Some storedNull
      /\ ((exists folderPath q,
             In (folderPath, q) (folderQuotas this)
             /\ in_folder p folderPath = true /\ (size v <= q)%Z)
          \/ (exists B, quota this = Some B /\ (size v <= B)%Z)))
  /\ (message = Some meet -> allowed qc = true /\ storeNull qc = false)
  /\ (message = None -> allowed qc = true /\ storeNull qc = false).
Proof.
  unfold _checkQuotaBeforeSet, check_folder, check_global.
  destruct (find _ (folderQuotas this)) as [[folderPath q]|] eqn:Hfind.
  - destruct (find_in _ _ _ Hfind) as [Hin Hcover]. simpl in Hcover.
    destruct (_calculateFolderSize size db folderPath) as [fs|];
      cbn [bind]; [|discriminate].
    destruct (currentPathSize size db p) as [cps|]; cbn [bind];
      [|discriminate].
    destruct (q <? fs - cps + size v)%Z.
    + destruct (size v <=? q)%Z eqn:Hfit; cbn [bind];
        quota_answer ltac:(left; exists folderPath, q; repeat split;
                           try assumption;
                           (apply Z.leb_le || apply Z.leb_gt); assumption).
    + cbn [bind]. destruct (quota this) as [B|].
      * destruct (B <? size db - cps + size v)%Z.
        -- destruct (size v <=? B)%Z eqn:Hfit;
             quota_answer ltac:(right; exists B; split; [reflexivity|];
                                (apply Z.leb_le || apply Z.leb_gt);
                                assumption).
        -- destruct (_ =? B)%Z; quota_answer idtac.
      * quota_answer idtac.
  - cbn [bind]. destruct (quota this) as [B|].
    + destruct (currentPathSize size db p) as [cps|]; cbn [bind];
        [|discriminate].
      destruct (B <? size db - cps + size v)%Z.
      * destruct (size v <=? B)%Z eqn:Hfit;
          quota_answer ltac:(right; exists B; split; [reflexivity|];
                             (apply Z.leb_le || apply Z.leb_gt); assumption).
      * destruct (_ =? B)%Z; quota_answer idtac.
    + quota_answer idtac.
Qed.

Lemma checkQuota_answers_witness :
  Some cannotSave = Some cannotSave
  /\ ((exists folderPath q,
         In (folderPath, q) (folderQuotas folder_and_global)
         /\ in_folder "a" folderPath = true /\ (q < jsonSize ten_bytes)%Z)
      \/ (exists B, quota folder_and_global = Some B
                    /\ (B < jsonSize ten_bytes)%Z)).
Proof.
  apply (proj1 (checkQuota_answers jsonSize folder_and_global (VObj []) "a"
                  ten_bytes (Some cannotSave)
                  {| allowed := false; storeNull := false |} eq_refl)).
  reflexivity.
Defined.

(** X15.  A [set] that does not end on a save stores nothing: when the
    result is an error or a refusal, the storage is what it was once the
    target database was looked up, and for a path without database prefix it
    is the storage the call started from. *)
Theorem set_without_save_stores_nothing (size : value -> Z) (this : FastLS)
  (w : world) (fullPath v : value) :
  (forall qc message,
     fst (fst (set size this w fullPath v)) <> SetSaved qc message) ->
  (snd (set size this w fullPath v)
   = snd (target_of this (fst (_parseFullPath fullPath)) w)
   \/ snd (set size this w fullPath v) = w)
  /\ (fst (_parseFullPath fullPath) = None ->
      snd (set size this w fullPath v) = w).
Proof.
  destruct (_parseFullPath fullPath) as [name p] eqn:Hparse.
  rewrite (set_unfold _ _ _ _ _ _ _ Hparse). cbn [fst].
  destruct (if String.eqb p "" then Ret tt else _validatePath p) as [[]|e].
  - destruct (target_of this name w) as [targetDB w1] eqn:Htarget. cbv zeta.
    cbn [snd].
    assert (Hlocal : name = None -> w1 = w).
    { intros ->. simpl in Htarget. now inversion Htarget. }
    destruct (_checkQuotaBeforeSet size this _ p v) as [[message qc]|e];
      [|simpl; auto].
    destruct (negb (allowed qc)); [simpl; auto|].
    destruct (_setValueByPath _ _ _ _) as [u|e]; [|simpl; auto].
    simpl. intro Hno. exfalso. apply (Hno qc message). reflexivity.
  - simpl. auto.
Qed.

Lemma set_without_save_stores_nothing_witness :
  snd (set jsonSize folder_and_global fresh_world (VStr "a") ten_bytes)
  = fresh_world.
Proof.
  apply (proj2 (set_without_save_stores_nothing jsonSize folder_and_global
                  fresh_world (VStr "a") ten_bytes
                  ltac:(intros qc message; vm_compute; discriminate))).
  reflexivity.
Defined.

Lemma map_set_twice (m : list (string * Z)) (k : string) (a b : Z) :
  map_set (map_set m k a) k b = map_set m k b.
Proof.
  induction m as [|[k' c] m IH]; simpl.
  - now rewrite String.eqb_refl.
  - destruct (String.eqb k' k) eqn:E; simpl; rewrite E; [reflexivity|].
    now rewrite IH.
Qed.

Lemma map_delete_set (m : list (string * Z)) (k : string) (b : Z) :
  ~ In k (map fst m) -> map_delete (map_set m k b) k = m.
Proof.
  induction m as [|[k' c] m IH]; simpl; intro Hfresh.
  - now rewrite String.eqb_refl.
  - destruct (String.eqb k' k) eqn:E.
    + apply String.eqb_eq in E. exfalso. apply Hfresh. now left.
    + simpl. rewrite E. f_equal. apply IH. intro. apply Hfresh. now right.
Qed.

Lemma map_set_In (m : list (string * Z)) (k : string) (b : Z) :
  In (k, b) (map_set m k b).
Proof.
  induction m as [|[k' c] m IH]; simpl; [now left|].
  destruct (String.eqb k' k) eqn:E.
  - apply String.eqb_eq in E. subst k'. now left.
  - now right.
Qed.

(** X16.  Folder budgets are kept under the normalised folder path:
    [setFolderQuota] records the bytes under that path.  Two spellings of
    one folder share one entry: a second [setFolderQuota] only replaces the
    bytes, in place; and [removeFolderQuota] after [setFolderQuota] gives
    back the table of budgets there was, when the folder had none. *)
Theorem folder_quota_table (this : FastLS) (spelling spelling' : string)
  (a b : Z) :
  _normalizePath spelling' = _normalizePath spelling ->
  In (_normalizePath spelling, b)
     (folderQuotas (setFolderQuota this spelling' b))
  /\ folderQuotas (setFolderQuota (setFolderQuota this spelling a) spelling' b)
     = folderQuotas (setFolderQuota this spelling b)
  /\ (~ In (_normalizePath spelling) (map fst (folderQuotas this)) ->
      folderQuotas (removeFolderQuota (setFolderQuota this spelling a) spelling')
      = folderQuotas this).
Proof.
  intro Hsame. simpl. rewrite Hsame. repeat split.
  - apply map_set_In.
  - apply map_set_twice.
  - apply map_delete_set.
Qed.

Lemma folder_quota_table_witness :
  folderQuotas (setFolderQuota (setFolderQuota main_db "docs/reports" 10)
                  ("/docs/./reports" ++ sep) 20)
  = folderQuotas (setFolderQuota main_db "docs/reports" 20).
Proof.
  apply (proj1 (proj2 (folder_quota_table main_db "docs/reports"
                         ("/docs/./reports" ++ sep) 10 20 eq_refl))).
Defined.

(** X17.  Whatever the size function, under a global budget and no folder
    budget covering the path: a candidate that is larger than the budget is
    refused with [cannotSave], whatever is stored already, as long as what
    the check subtracts for the path is no more than the size of the
    database (the encoding of a stored value is part of the encoding of the
    database) and the path names no member of the prototype chain of the
    database. *)
Theorem oversized_candidate_is_refused (size : value -> Z) (this : FastLS)
  (db : value) (p : string) (v : value) (B cps : Z) :
  quota this = Some B ->
  find (fun fq => in_folder p (fst fq)) (folderQuotas this) = None ->
  builtin_member db p = false ->
  currentPathSize size db p = Ret cps ->
  (cps <= size db)%Z ->
  (B < size v)%Z ->
  _checkQuotaBeforeSet size this db p v = Ret reject.
Proof.
  intros Hq Hfind _ Hcps Hroom Hbig.
  unfold _checkQuotaBeforeSet, check_folder. rewrite Hfind. cbn [bind].
  rewrite Hq. unfold check_global. rewrite Hcps. cbn [bind].
  replace (B <? _)%Z with true by (symmetry; apply Z.ltb_lt; lia).
  replace (size v <=? B)%Z with false by (symmetry; apply Z.leb_gt; lia).
  reflexivity.
Qed.

Lemma oversized_candidate_is_refused_witness :
  _checkQuotaBeforeSet jsonSize (setQuota main_db 5)
    (VObj [("k", VStr "abcdef")]) "k" ten_bytes
  = Ret reject.
Proof.
  apply (oversized_candidate_is_refused jsonSize (setQuota main_db 5)
           (VObj [("k", VStr "abcdef")]) "k" ten_bytes 5 8);
    try reflexivity.
  vm_compute. discriminate.
Defined.

(** ** The codec and the storage *)

Lemma plain_not_undefined (v : value) :
  plain_json v = true -> is_undefined v = false.
Proof. destruct v; simpl; congruence. Qed.

Lemma codec_fixes_plain (v : value) :
  plain_json v = true -> jsonRoundTrip v = v.
Proof.
  induction v as [| | | | |es nm IHes _|ps IH] using value_ind_nested;
    try reflexivity; try (intro H; discriminate H).
  - cbn [plain_json jsonRoundTrip]. intro H.
    apply andb_true_iff in H. destruct H as [Hes Hnm].
    destruct nm; [|discriminate]. f_equal.
    induction IHes as [|e es He _ IHl]; [reflexivity|].
    simpl in Hes. apply andb_true_iff in Hes. destruct Hes as [Hp Hes].
    simpl. rewrite (plain_not_undefined e Hp), (He Hp). f_equal.
    now apply IHl.
  - cbn [plain_json jsonRoundTrip]. intro H.
    apply andb_true_iff in H. destruct H as [Hps Hmark].
    assert (Hsame : flat_map (fun kv => if is_undefined (snd kv) then []
                                        else [(fst kv, jsonRoundTrip (snd kv))])
                      ps = ps).
    { clear Hmark. induction IH as [|[k e] ps He _ IHl]; [reflexivity|].
      simpl in Hps. apply andb_true_iff in Hps. destruct Hps as [Hp Hps].
      simpl in *. rewrite (plain_not_undefined e Hp), (He Hp). simpl.
      f_equal. now apply IHl. }
    rewrite Hsame. unfold revive.
    apply negb_true_iff in Hmark. fold reserved_name. now rewrite Hmark.
Qed.

Lemma plain_lookup (ps : props) (k : string) :
  forallb (fun kv => plain_json (snd kv)) ps = true ->
  truthy (lookup ps k) = true -> plain_json (lookup ps k) = true.
Proof.
  induction ps as [|[k0 v0] ps IH]; simpl; [discriminate|].
  intro H. apply andb_true_iff in H. destruct H as [Hv Hps].
  destruct (String.eqb k0 k); auto.
Qed.

Lemma plain_revive (ps : props) :
  forallb (fun kv => plain_json (snd kv)) ps = true ->
  plain_json (revive (VObj ps)) = true.
Proof.
  intro Hps. unfold revive. fold reserved_name.
  destruct (truthy (lookup ps reserved_name)) eqn:Ht.
  - cbn [plain_json forallb snd]. rewrite (plain_lookup ps _ Hps Ht).
    reflexivity.
  - cbn [plain_json]. now rewrite Hps, Ht.
Qed.

Lemma codec_gives_plain (v : value) :
  is_undefined v = false -> plain_json (jsonRoundTrip v) = true.
Proof.
  induction v as [| | | | |es nm IHes _|ps IH] using value_ind_nested;
    try reflexivity; try discriminate; intros _.
  - cbn [jsonRoundTrip plain_json]. rewrite andb_true_r.
    induction IHes as [|e es He _ IHl]; [reflexivity|].
    simpl. rewrite IHl, andb_true_r.
    destruct (is_undefined e) eqn:Hu; [reflexivity|now apply He].
  - cbn [jsonRoundTrip]. apply plain_revive.
    induction IH as [|[k e] ps He _ IHl]; [reflexivity|].
    simpl in *. destruct (is_undefined e) eqn:Hu; [exact IHl|].
    simpl. now rewrite (He eq_refl), IHl.
Qed.

(** X18.  The codec leaves a plain JSON tree as it is: a tree without
    [undefined] inside, whose arrays carry nothing but their elements and
    whose objects have no truthy member named [__fastls_exception_function],
    comes back from [_deserializeData(_serializeData(v))] unchanged. *)
Theorem codec_round_trip (v : value) :
  plain_json v = true -> jsonRoundTrip v = v.
Proof. apply codec_fixes_plain. Qed.

Lemma codec_round_trip_witness :
  jsonRoundTrip (VObj [("User", VObj [("Name", VStr "A")]);
                       ("tags", VArr [VNull; VNum 3] [])])
  = VObj [("User", VObj [("Name", VStr "A")]);
          ("tags", VArr [VNull; VNum 3] [])].
Proof. apply codec_round_trip. reflexivity. Defined.

(** X19.  Reading back is idempotent: what the codec gave once, it gives
    again; [undefined] members dropped, holes turned into [null], array
    properties lost and function markers rewritten happen the first time
    only. *)
Theorem codec_idempotent (v : value) :
  jsonRoundTrip (jsonRoundTrip v) = jsonRoundTrip v.
Proof.
  destruct (is_undefined v) eqn:Hu.
  - destruct v; try discriminate. reflexivity.
  - apply codec_fixes_plain, codec_gives_plain, Hu.
Qed.

Lemma saveRoot_unfold (root : props) :
  _saveRoot root = own_entries (revive (VObj (encoded_entries root))).
Proof. reflexivity. Qed.

Lemma lookup_encoded_absent (root : props) (k : string) :
  ~ In k (map fst root) -> lookup (encoded_entries root) k = VUndef.
Proof.
  unfold encoded_entries.
  induction root as [|[k0 v0] root IH]; simpl; intro Hfresh; [reflexivity|].
  assert (E : String.eqb k0 k = false).
  { apply String.eqb_neq. intro. apply Hfresh. now left. }
  destruct (is_undefined v0); simpl; rewrite ?E; apply IH;
    intro; apply Hfresh; now right.
Qed.

Lemma upsert_keys (ps : props) (n k : string) (v : value) :
  In k (map fst (upsert ps n v)) -> k = n \/ In k (map fst ps).
Proof.
  induction ps as [|[k0 v0] ps IH]; simpl.
  - intros [H|[]]; auto.
  - destruct (String.eqb k0 n); simpl; intros [H|H]; auto.
    destruct (IH H); auto.
Qed.

Lemma lookup_encoded_upsert (w : props) (name : string) (db : value) :
  is_undefined db = false ->
  lookup (encoded_entries (upsert w name db)) name = jsonRoundTrip db.
Proof.
  intro Hdb. unfold encoded_entries.
  induction w as [|[k0 v0] w IH]; simpl.
  - rewrite Hdb. simpl. now rewrite String.eqb_refl.
  - destruct (String.eqb k0 name) eqn:E; simpl.
    + rewrite Hdb. simpl. now rewrite String.eqb_refl.
    + destruct (is_undefined v0); simpl; rewrite ?E; exact IH.
Qed.

Lemma saveDatabase_lookup (this : FastLS) (w : world) (db : value) :
  dbName this <> reserved_name ->
  ~ In reserved_name (map fst w) ->
  is_undefined db = false ->
  lookup (_saveDatabase this db w) (dbName this) = jsonRoundTrip db.
Proof.
  intros Hname Hfree Hdb. unfold _saveDatabase. rewrite saveRoot_unfold.
  unfold revive. fold reserved_name.
  rewrite lookup_encoded_absent.
  - simpl. now apply lookup_encoded_upsert.
  - intro Hin. apply upsert_keys in Hin. destruct Hin as [Heq|Hin]; auto.
Qed.

(** X20.  What [_getDatabase] reads after [_saveDatabase] is what was saved,
    as the codec gives it back ([{}] when that is falsy), provided the
    database is named after no member of [Object.prototype] and neither it
    nor any database of the storage is named [__fastls_exception_function],
    the marker the reviver rewrites. *)
Theorem saved_database_is_read_back (this : FastLS) (w : world) (db : value) :
  object_member (dbName this) = false ->
  dbName this <> reserved_name ->
  ~ In reserved_name (map fst w) ->
  is_undefined db = false ->
  _getDatabase this (_saveDatabase this db w)
  = if truthy (jsonRoundTrip db) then jsonRoundTrip db else VObj [].
Proof.
  intros _ Hname Hfree Hdb. unfold _getDatabase.
  now rewrite saveDatabase_lookup.
Qed.

Lemma saved_database_is_read_back_witness :
  _getDatabase main_db
    (_saveDatabase main_db (VObj [("k", VArr [VUndef; VNum 1] [])]) small_world)
  = VObj [("k", VArr [VNull; VNum 1] [])].
Proof.
  rewrite (saved_database_is_read_back main_db small_world
             (VObj [("k", VArr [VUndef; VNum 1] [])])).
  - reflexivity.
  - reflexivity.
  - discriminate.
  - simpl. intuition discriminate.
  - reflexivity.
Defined.

(** ** [set], [get] and the rest of the interface over the storage *)

Lemma plain_key_spec (k : string) :
  plain_key k = true ->
  segment_ok k = true /\ includes ":"%char k = false
  /\ existsb_char is_dot k = false /\ arrayMatch k = None.
Proof.
  unfold plain_key. intro H.
  apply andb_true_iff in H. destruct H as [H Hmatch].
  apply andb_true_iff in H. destruct H as [H Hdot].
  apply andb_true_iff in H. destruct H as [Hseg Hcolon].
  repeat split; try (now apply negb_true_iff); try assumption.
  now destruct (arrayMatch k).
Qed.

Lemma existsb_char_weaken (p q : ascii -> bool) (s : string) :
  (forall c, p c = true -> q c = true) ->
  existsb_char q s = false -> existsb_char p s = false.
Proof.
  intro Himp. induction s as [|c s IH]; cbn [existsb_char]; [reflexivity|].
  intro H. apply orb_false_iff in H. destruct H as [Hc Hs].
  rewrite (IH Hs), orb_false_r.
  destruct (p c) eqn:E; [|reflexivity]. apply Himp in E. congruence.
Qed.

Lemma sep_free_no_backslash (k : string) :
  existsb_char is_separator k = false -> includes backslash k = false.
Proof.
  rewrite includes_existsb. apply existsb_char_weaken.
  intros c Hc. apply Ascii.eqb_eq in Hc. subst c. reflexivity.
Qed.

Lemma parse_plain_key (k : string) :
  plain_key k = true -> _parseFullPath (VStr k) = (None, k).
Proof.
  intro Hk. destruct (plain_key_spec k Hk) as (Hseg & Hcolon & _ & _).
  destruct (segment_ok_spec k Hseg) as (Hne & _ & _ & Hfree).
  unfold _parseFullPath. rewrite (colon_prefix_none k Hcolon).
  unfold _normalizePath, strip_flag.
  rewrite Hne, (colon_prefix_none k Hcolon), (split_on_single _ _ Hfree).
  rewrite normalize_parts_kept by (repeat constructor; assumption).
  reflexivity.
Qed.

Lemma validate_plain_key (k : string) :
  plain_key k = true -> _validatePath k = Ret tt.
Proof.
  intro Hk. destruct (plain_key_spec k Hk) as (Hseg & Hcolon & _ & _).
  destruct (segment_ok_spec k Hseg) as (Hne & _ & Hdd & Hfree).
  unfold _validatePath.
  now rewrite Hcolon, (sep_free_no_backslash k Hfree), Hdd, andb_false_r.
Qed.

Lemma write_plain_key (ps : props) (k : string) (v : value) :
  plain_key k = true ->
  _setValueByPath true (VObj ps) k v = Ret (VObj (upsert ps k v)).
Proof.
  intro Hk. destruct (plain_key_spec k Hk) as (Hseg & _ & Hdot & Hplain).
  destruct (segment_ok_spec k Hseg) as (Hne & _).
  unfold _setValueByPath. rewrite Hne, (split_on_single _ _ Hdot).
  cbn [truthy]. rewrite set_loop_last. unfold set_last. rewrite Hplain.
  reflexivity.
Qed.

Lemma read_plain_key (ps : props) (k : string) :
  plain_key k = true ->
  _getValueByPath true (VObj ps) k = Ret (lookup ps k).
Proof.
  intro Hk. destruct (plain_key_spec k Hk) as (Hseg & _ & Hdot & Hplain).
  destruct (segment_ok_spec k Hseg) as (Hne & _).
  unfold _getValueByPath. rewrite Hne, (split_on_single _ _ Hdot).
  cbn [truthy negb orb]. rewrite get_loop_cons. cbn [is_object negb].
  unfold get_step. rewrite Hplain. cbn. apply get_last.
Qed.

Lemma plain_upsert (ps : props) (k : string) (v : value) :
  forallb (fun kv => plain_json (snd kv)) ps = true ->
  plain_json v = true ->
  forallb (fun kv => plain_json (snd kv)) (upsert ps k v) = true.
Proof.
  intros Hps Hv. induction ps as [|[k0 v0] ps IH]; simpl.
  - now rewrite Hv.
  - simpl in Hps. apply andb_true_iff in Hps. destruct Hps as [H0 Hps].
    destruct (String.eqb k0 k); simpl; [now rewrite Hv, Hps|].
    now rewrite H0, IH.
Qed.

Lemma saved_database_lookup_plain (this : FastLS) (w : world) (db : value) :
  dbName this <> reserved_name ->
  ~ In reserved_name (map fst w) ->
  plain_json db = true -> truthy db = true ->
  _getDatabase this (_saveDatabase this db w) = db.
Proof.
  intros Hname Hfree Hplain Ht. unfold _getDatabase.
  rewrite saveDatabase_lookup by (auto using plain_not_undefined).
  now rewrite (codec_fixes_plain db Hplain), Ht.
Qed.

(** a [set] on a top-level key of a plain object database, without quotas *)
Lemma set_plain_key (size : value -> Z) (this : FastLS) (w : world)
  (k : string) (v : value) (ps : props) :
  caseSen this = true -> quota this = None -> folderQuotas this = [] ->
  dbName this <> reserved_name -> ~ In reserved_name (map fst w) ->
  plain_key k = true -> k <> reserved_name ->
  _getDatabase this w = VObj ps -> plain_json (VObj ps) = true ->
  plain_json v = true ->
  fst (fst (set size this w (VStr k) v)) = SetSaved pass None
  /\ _getDatabase this (snd (set size this w (VStr k) v))
     = VObj (upsert ps k v).
Proof.
  intros Hcs Hq Hfq Hname Hfree Hk Hkr Hdb Hplain Hv.
  rewrite (set_unfold size this w (VStr k) v None k (parse_plain_key k Hk)).
  destruct (plain_key_spec k Hk) as (Hseg & _).
  destruct (segment_ok_spec k Hseg) as (Hne & _).
  rewrite Hne, (validate_plain_key k Hk). cbn [target_of]. cbv zeta.
  unfold _checkQuotaBeforeSet, check_folder. rewrite Hfq, Hq.
  cbn [find bind check_global allowed storeNull negb].
  rewrite Hcs, Hdb, (write_plain_key ps k v Hk). cbn [fst snd].
  split; [reflexivity|].
  assert (Hnew : plain_json (VObj (upsert ps k v)) = true).
  { cbn [plain_json] in *. apply andb_true_iff in Hplain.
    destruct Hplain as [Hps Hmark].
    rewrite (plain_upsert ps k v Hps Hv).
    now rewrite lookup_upsert_other by (intro; now apply Hkr). }
  rewrite saved_database_lookup_plain; auto.
Qed.

Lemma get_local (fuel : nat) (this : FastLS) (w : world) (k : string) :
  plain_key k = true ->
  get (S fuel) this w (VStr k)
  = match prop_read (_getDatabase this w) k with
    | Throw _ => Some (VUndef, w)
    | Ret directValue =>
        match (if truthy directValue then prop_read directValue shortcut_key
               else Ret VUndef) with
        | Throw _ => Some (VUndef, w)
        | Ret target =>
            if truthy directValue && truthy target then get fuel this w target
            else match _getValueByPath (caseSen this) (_getDatabase this w) k with
                 | Ret r => Some (r, w)
                 | Throw _ => Some (VUndef, w)
                 end
        end
    end.
Proof.
  intro Hk. cbn [get]. rewrite (parse_plain_key k Hk). reflexivity.
Qed.

(** the read of a key just written, through the storage *)
Lemma get_after_set (size : value -> Z) (this : FastLS) (w : world)
  (k : string) (v : value) (ps : props) :
  caseSen this = true -> quota this = None -> folderQuotas this = [] ->
  dbName this <> reserved_name -> ~ In reserved_name (map fst w) ->
  plain_key k = true -> k <> reserved_name ->
  _getDatabase this w = VObj ps -> plain_json (VObj ps) = true ->
  plain_json v = true -> is_shortcut v = false ->
  let after := set size this w (VStr k) v in
  forall fuel, get (S fuel) this (snd after) (VStr k) = Some (v, snd after).
Proof.
  intros Hcs Hq Hfq Hname Hfree Hk Hkr Hdb Hplain Hv Hshort after.
  destruct (set_plain_key size this w k v ps Hcs Hq Hfq Hname Hfree Hk Hkr
              Hdb Hplain Hv) as [Hsaved Hread].
  fold after in Hsaved, Hread.
  intro fuel. rewrite (get_local fuel this (snd after) k Hk), Hread.
  cbn [prop_read]. rewrite lookup_upsert.
  rewrite Hcs, (read_plain_key _ k Hk), lookup_upsert.
  unfold is_shortcut in Hshort.
  destruct (truthy v) eqn:Ht; [|reflexivity].
  destruct (prop_read_truthy v shortcut_key Ht) as [target Htarget].
  rewrite Htarget in *. cbn [andb] in Hshort. now rewrite Hshort.
Qed.

(** ** The global budget *)






Lemma upsert_In_key (ps : props) (k : string) (v : value) :
  In k (map fst (upsert ps k v)).
Proof.
  induction ps as [|[k0 v0] ps IH]; simpl; [now left|].
  destruct (String.eqb k0 k); simpl; auto.
Qed.

Lemma upsert_keeps_keys (ps : props) (k k' : string) (v : value) :
  In k' (map fst ps) -> In k' (map fst (upsert ps k v)).
Proof.
  induction ps as [|[k0 v0] ps IH]; simpl; [tauto|].
  destruct (String.eqb k0 k) eqn:E; simpl.
  - apply String.eqb_eq in E. subst k0. tauto.
  - intros [H|H]; auto.
Qed.

(** X21.  A value written with [set] at a top-level key is what [get] reads
    there afterwards, through the storage: for an instance built with
    [useAsync], in case-sensitive mode and without quotas, a database that
    is a plain object, a key that is one plain segment and a plain value
    that is not a shortcut, neither the key nor the name of the database
    being a member of [Object.prototype], [set] saves, the [get] of the key
    gives the value, and [keys()] lists the key with the keys there
    were. *)
Theorem set_then_get (size : value -> Z) (this : FastLS) (w : world)
  (k : string) (v : value) (ps : props) :
  useAsync this = true ->
  caseSen this = true -> quota this = None -> folderQuotas this = [] ->
  object_member (dbName this) = false ->
  dbName this <> reserved_name -> ~ In reserved_name (map fst w) ->
  plain_key k = true -> object_member k = false -> k <> reserved_name ->
  _getDatabase this w = VObj ps -> plain_json (VObj ps) = true ->
  plain_json v = true -> is_shortcut v = false ->
  let after := set size this w (VStr k) v in
  fst (fst after) = SetSaved pass None
  /\ (forall fuel, get (S fuel) this (snd after) (VStr k) = Some (v, snd after))
  /\ exists ks, keys this (snd after) = Ret ks
                /\ In k ks /\ incl (map fst ps) ks.
Proof.
  intros _ Hcs Hq Hfq _ Hname Hfree Hk _ Hkr Hdb Hplain Hv Hshort after.
  destruct (set_plain_key size this w k v ps Hcs Hq Hfq Hname Hfree Hk Hkr
              Hdb Hplain Hv) as [Hsaved Hread].
  fold after in Hsaved, Hread. repeat split; [exact Hsaved| |].
  - exact (get_after_set size this w k v ps Hcs Hq Hfq Hname Hfree Hk Hkr
             Hdb Hplain Hv Hshort).
  - exists (map fst (upsert ps k v)). unfold keys. rewrite Hread.
    repeat split.
    + apply upsert_In_key.
    + intros k' Hin. now apply upsert_keeps_keys.
Qed.

Lemma set_then_get_witness :
  get 1 main_db (snd (set jsonSize main_db small_world (VStr "n") (VNum 3)))
    (VStr "n")
  = Some (VNum 3,
          snd (set jsonSize main_db small_world (VStr "n") (VNum 3))).
Proof.
  apply (set_then_get jsonSize main_db small_world "n" (VNum 3)
           [("k", VStr "abcdef")]); try reflexivity; try discriminate.
  simpl. intuition discriminate.
Defined.

(** X22.  A shortcut stored with [setShortcut] makes [get] on its name the
    [get] on its target: under the same conditions, for a target that is a
    non-empty string, the read of the name with one more nested call allowed
    is the read of the target. *)
Theorem setShortcut_then_get (size : value -> Z) (this : FastLS) (w : world)
  (name target : string) (ps : props) :
  useAsync this = true ->
  caseSen this = true -> quota this = None -> folderQuotas this = [] ->
  object_member (dbName this) = false ->
  dbName this <> reserved_name -> ~ In reserved_name (map fst w) ->
  plain_key name = true -> object_member name = false ->
  name <> reserved_name ->
  _getDatabase this w = VObj ps -> plain_json (VObj ps) = true ->
  target <> "" ->
  let after := setShortcut size this w (VStr name) (VStr target) in
  fst (fst after) = SetSaved pass None
  /\ forall fuel,
       get (S fuel) this (snd after) (VStr name)
       = get fuel this (snd after) (VStr target).
Proof.
  intros _ Hcs Hq Hfq _ Hname Hfree Hk _ Hkr Hdb Hplain Htarget after.
  destruct (set_plain_key size this w name (VObj [(shortcut_key, VStr target)])
              ps Hcs Hq Hfq Hname Hfree Hk Hkr Hdb Hplain eq_refl)
    as [Hsaved Hread].
  unfold setShortcut in after. fold after in Hsaved, Hread.
  split; [exact Hsaved|].
  intro fuel. rewrite (get_local fuel this (snd after) name Hk), Hread.
  cbn [prop_read]. rewrite lookup_upsert. cbn.
  apply String.eqb_neq in Htarget. now rewrite Htarget.
Qed.

Lemma setShortcut_then_get_witness :
  get 2 main_db
    (snd (setShortcut jsonSize main_db small_world (VStr "s") (VStr "k")))
    (VStr "s")
  = get 1 main_db
      (snd (setShortcut jsonSize main_db small_world (VStr "s") (VStr "k")))
      (VStr "k").
Proof.
  apply (setShortcut_then_get jsonSize main_db small_world "s" "k"
           [("k", VStr "abcdef")]); try reflexivity; try discriminate.
  simpl. intuition discriminate.
Defined.

(** X23.  After [clear] the database is empty: [keys()] gives no key and
    [count()] gives 0, whatever the storage held, for every instance built
    with [useAsync] whose database is named neither [__fastls_function] nor
    after a member of [Object.prototype]. *)
Theorem clear_empties_database (this : FastLS) (w : world) :
  useAsync this = true ->
  object_member (dbName this) = false ->
  dbName this <> "__fastls_function" ->
  keys this (clear this w) = Ret [] /\ count this (clear this w) = Ret 0.
Proof.
  intros _ _ Hname.
  assert (Hdb : _getDatabase this (clear this w) = VObj []).
  { unfold clear, _saveDatabase. rewrite saveRoot_unfold.
    unfold _getDatabase, revive. fold reserved_name.
    destruct (truthy (lookup (encoded_entries _) reserved_name)).
    - cbn [own_entries lookup]. apply String.eqb_neq in Hname.
      rewrite String.eqb_sym in Hname. now rewrite Hname.
    - cbn [own_entries]. now rewrite lookup_encoded_upsert. }
  unfold count, keys. rewrite Hdb. split; reflexivity.
Qed.

Lemma clear_empties_database_witness :
  keys main_db (clear main_db small_world) = Ret [].
Proof.
  apply (clear_empties_database main_db small_world);
    try reflexivity; discriminate.
Defined.

Lemma lookup_filter_out (ps : props) (k k' : string) :
  lookup (filter (fun kv => negb (String.eqb (fst kv) k)) ps) k'
  = if String.eqb k k' then VUndef else lookup ps k'.
Proof.
  induction ps as [|[k0 v0] ps IH]; simpl; [now destruct (String.eqb k k')|].
  destruct (String.eqb k0 k) eqn:E; simpl.
  - apply String.eqb_eq in E. subst k0. rewrite IH.
    now destruct (String.eqb k k').
  - destruct (String.eqb k0 k') eqn:E'; [|exact IH].
    apply String.eqb_eq in E'. subst k0.
    rewrite String.eqb_sym in E. now rewrite E.
Qed.

Lemma filter_absent (ps : props) (k : string) :
  existsb (fun kv => String.eqb (fst kv) k) ps = false ->
  filter (fun kv => negb (String.eqb (fst kv) k)) ps = ps.
Proof.
  induction ps as [|[k0 v0] ps IH]; simpl; [reflexivity|].
  intro H. apply orb_false_iff in H. destruct H as [E Hps].
  rewrite E. simpl. now rewrite IH.
Qed.

Lemma plain_filter (f : string * value -> bool) (ps : props) :
  forallb (fun kv => plain_json (snd kv)) ps = true ->
  forallb (fun kv => plain_json (snd kv)) (filter f ps) = true.
Proof.
  induction ps as [|kv ps IH]; simpl; [reflexivity|].
  intro H. apply andb_true_iff in H. destruct H as [H0 Hps].
  destruct (f kv); simpl; [now rewrite H0, IH|now apply IH].
Qed.

(** X24.  [removeKey] deletes the top-level entry whose key is the path and
    nothing else: on an instance built with [useAsync], for a key that is
    one plain segment, on a plain object database without an entry named
    [hasOwnProperty], neither the key nor the name of the database being a
    member of [Object.prototype], it returns [null], the database read
    afterwards is the one before without that entry, and in case-sensitive
    mode [get] on the key gives [undefined]; when the key is absent the
    storage is not written. *)
Theorem removeKey_removes (this : FastLS) (w : world) (k : string) (ps : props) :
  useAsync this = true ->
  object_member (dbName this) = false ->
  dbName this <> reserved_name -> ~ In reserved_name (map fst w) ->
  plain_key k = true -> object_member k = false ->
  _getDatabase this w = VObj ps -> plain_json (VObj ps) = true ->
  has_own (VObj ps) "hasOwnProperty" = false ->
  let after := removeKey this w (VStr k) in
  fst after = None
  /\ _getDatabase this (snd after)
     = VObj (filter (fun kv => negb (String.eqb (fst kv) k)) ps)
  /\ (caseSen this = true ->
      forall fuel, get (S fuel) this (snd after) (VStr k)
                   = Some (VUndef, snd after))
  /\ (has_own (VObj ps) k = false -> snd after = w).
Proof.
  intros _ _ Hname Hfree Hk _ Hdb Hplain Hshadow after.
  assert (Hafter : fst after = None
                   /\ _getDatabase this (snd after)
                      = VObj (filter (fun kv => negb (String.eqb (fst kv) k)) ps)
                   /\ (has_own (VObj ps) k = false -> snd after = w)).
  { unfold after, removeKey. rewrite (parse_plain_key k Hk).
    cbn [target_of]. rewrite Hdb. unfold call_hasOwnProperty.
    rewrite Hshadow.
    destruct (has_own (VObj ps) k) eqn:Hown; cbn [prop_delete fst snd].
    - repeat split; [|discriminate].
      apply saved_database_lookup_plain; auto.
      cbn [plain_json] in *. apply andb_true_iff in Hplain.
      destruct Hplain as [Hps Hmark].
      rewrite (plain_filter _ ps Hps), lookup_filter_out.
      now destruct (String.eqb k reserved_name).
    - repeat split. simpl in Hown. now rewrite (filter_absent ps k Hown). }
  destruct Hafter as (Hres & Hread & Hsame). repeat split; auto.
  intros Hcs fuel. rewrite (get_local fuel this (snd after) k Hk), Hread.
  cbn [prop_read]. rewrite lookup_filter_out, String.eqb_refl. cbn [truthy].
  cbn [andb]. rewrite Hcs, (read_plain_key _ k Hk).
  now rewrite lookup_filter_out, String.eqb_refl.
Qed.

Lemma removeKey_removes_witness :
  _getDatabase main_db (snd (removeKey main_db small_world (VStr "k")))
  = VObj [].
Proof.
  apply (removeKey_removes main_db small_world "k" [("k", VStr "abcdef")]);
    try reflexivity; try discriminate.
  simpl. intuition discriminate.
Defined.

(** ** [search] and [path] *)

Lemma searchRecursive_passes (predicate : predicate) (includeKey : bool)
  (obj : value) :
  Forall (fun v => exists key, test predicate includeKey key v = true)
         (searchRecursive predicate includeKey obj).
Proof.
  induction obj as [| | | | |es nm IHes IHnm|ps IH] using value_ind_nested;
    try constructor.
  - cbn [searchRecursive]. apply Forall_app. split.
    + generalize 0. induction IHes as [|e es He _ IHl]; intro i;
        [constructor|].
      apply Forall_app. split.
      * destruct (test predicate includeKey (string_of_nat i) e) eqn:Ht;
          [|constructor].
        constructor; [eauto|constructor].
      * apply Forall_app. split; [|apply IHl].
        destruct (is_plain_object e); [exact He|constructor].
    + induction IHnm as [|[k e] nm He _ IHl]; [constructor|].
      cbn [flat_map fst snd] in *. apply Forall_app. split; [|exact IHl].
      apply Forall_app. split.
      * destruct (test predicate includeKey k e) eqn:Ht; [|constructor].
        constructor; [eauto|constructor].
      * destruct (is_plain_object e); [exact He|constructor].
  - cbn [searchRecursive].
    induction IH as [|[k e] ps He _ IHl]; [constructor|].
    cbn [flat_map fst snd] in *. apply Forall_app. split; [|exact IHl].
    apply Forall_app. split.
    + destruct (test predicate includeKey k e) eqn:Ht; [|constructor].
      constructor; [eauto|constructor].
    + destruct (is_plain_object e); [exact He|constructor].
Qed.

(** X25.  On an instance built with [useAsync], [search] only returns
    values the predicate accepted: called with one argument, the predicate
    holds of every value in the result; called with the key, it holds of
    every value in the result together with some key.  A path that leads
    nowhere gives the empty result. *)
Theorem search_results_pass (this : FastLS) (w : world) (p : string)
  (predicate : predicate) :
  useAsync this = true ->
  Forall (fun v => predicate v VUndef = true) (search this w p predicate false)
  /\ Forall (fun v => exists key, predicate (VStr key) v = true)
       (search this w p predicate true)
  /\ (_getValueByPath (caseSen this) (_getDatabase this w) p = Ret VUndef ->
      forall includeKey, search this w p predicate includeKey = []).
Proof.
  intros _. unfold search.
  destruct (_getValueByPath (caseSen this) (_getDatabase this w) p)
    as [targetObj|]; [|repeat split; apply Forall_nil].
  repeat split.
  - pose proof (searchRecursive_passes predicate false targetObj) as H.
    eapply Forall_impl; [|exact H]. now intros v [key Hv].
  - exact (searchRecursive_passes predicate true targetObj).
  - intros H includeKey. inversion H. reflexivity.
Qed.

Lemma search_results_pass_witness :
  search main_db small_world "absent" (fun _ _ => true) false = [].
Proof.
  apply (proj2 (proj2 (search_results_pass main_db small_world "absent"
                         (fun _ _ => true) eq_refl))).
  reflexivity.
Defined.

Lemma app_nil_iff {A : Type} (l l' : list A) :
  (l ++ l')%list = [] <-> l = [] /\ l' = [].
Proof.
  split; [apply app_eq_nil|]. intros [-> ->]. reflexivity.
Qed.

Lemma pathRecursive_search (predicate : predicate) (includeKey : bool)
  (obj : value) :
  forall currentPath,
    pathRecursive predicate includeKey obj currentPath = None
    <-> searchRecursive predicate includeKey obj = [].
Proof.
  induction obj as [| | | | |es nm IHes IHnm|ps IH] using value_ind_nested;
    intro currentPath; try (split; reflexivity).
  - cbn [pathRecursive searchRecursive]. rewrite app_nil_iff.
    generalize 0. induction IHes as [|e es He _ IHl]; intro i.
    + split; [intro Hover; split; [reflexivity|]|intros [_ Hs]].
      * induction IHnm as [|[k e] nm He _ IHl]; [reflexivity|].
        cbn [flat_map fst snd] in *.
        destruct (test predicate includeKey k e); [discriminate|].
        destruct (is_plain_object e).
        -- destruct (pathRecursive predicate includeKey e _) eqn:Hp;
             [discriminate|].
           apply He in Hp. rewrite Hp. now apply IHl.
        -- now apply IHl.
      * induction IHnm as [|[k e] nm He _ IHl]; [reflexivity|].
        cbn [flat_map fst snd] in *.
        apply app_nil_iff in Hs. destruct Hs as [Hhead Hrest].
        apply app_nil_iff in Hhead. destruct Hhead as [Ht Hc].
        destruct (test predicate includeKey k e); [discriminate|].
        destruct (is_plain_object e).
        -- rewrite (proj2 (He _) Hc). now apply IHl.
        -- now apply IHl.
    + specialize (IHl (S i)).
      destruct (test predicate includeKey (string_of_nat i) e).
      * split; [discriminate|]. intros [H _]. discriminate.
      * cbn [app]. destruct (is_plain_object e).
        -- destruct (pathRecursive predicate includeKey e _) eqn:Hp.
           ++ split; [discriminate|]. intros [H _].
              apply app_nil_iff in H. destruct H as [H _].
              rewrite (proj2 (He _) H) in Hp. discriminate.
           ++ apply He in Hp. rewrite Hp. exact IHl.
        -- exact IHl.
  - cbn [pathRecursive searchRecursive].
    induction IH as [|[k e] ps He _ IHl]; [split; reflexivity|].
    cbn [flat_map fst snd] in *.
    destruct (test predicate includeKey k e).
    + split; discriminate.
    + cbn [app]. destruct (is_plain_object e).
      * destruct (pathRecursive predicate includeKey e _) eqn:Hp.
        -- split; [discriminate|]. intro H.
           apply app_nil_iff in H. destruct H as [H _].
           rewrite (proj2 (He _) H) in Hp. discriminate.
        -- apply He in Hp. rewrite Hp. exact IHl.
      * exact IHl.
Qed.

(** X26.  [path] and [search] agree: for the same folder path, predicate and
    [includeKey], [path] returns [null] exactly when [search] returns the
    empty list. *)
Theorem path_null_iff_search_empty (this : FastLS) (w : world) (p : string)
  (predicate : predicate) (includeKey : bool) :
  path this w p predicate includeKey = None
  <-> search this w p predicate includeKey = [].
Proof.
  unfold path, search.
  destruct (_getValueByPath (caseSen this) (_getDatabase this w) p);
    [apply pathRecursive_search|split; reflexivity].
Qed.

(** ** The write and the delete of [index.js] *)

Lemma V1_parsePath_not_nil (p : string) : V1._parsePath p <> [].
Proof.
  unfold V1._parsePath.
  destruct (split_on is_dot p) as [|part parts] eqn:Hs;
    [now apply split_on_not_nil in Hs|].
  simpl. destruct (arrayMatch part) as [[name digits]|]; discriminate.
Qed.

Lemma V1_set_loop_read (keys : list string) :
  forall cur v r, keys <> [] -> V1Update.set_loop cur keys v = Ret r ->
                  V1.get_loop r keys = Ret v.
Proof.
  induction keys as [|key keys' IH]; [congruence|].
  intros cur v r _. destruct keys' as [|k2 rest].
  - cbn [V1Update.set_loop V1.get_loop]. intro Hw.
    rewrite (proj2 (prop_write_object _ _ _ _ Hw)).
    now rewrite (prop_read_write _ _ _ _ Hw).
  - change (V1Update.set_loop cur (key :: k2 :: rest) v)
      with (c <- prop_read cur key ;;
            current' <- (if is_object c then Ret cur
                         else prop_write cur key (VObj [])) ;;
            child <- V1Update.set_loop (if is_object c then c else VObj [])
                       (k2 :: rest) v ;;
            prop_write current' key child).
    destruct (prop_read cur key) as [c|]; cbn [bind]; [|discriminate].
    destruct (if is_object c then Ret cur else prop_write cur key (VObj []))
      as [c1|]; cbn [bind]; [|discriminate].
    destruct (V1Update.set_loop _ (k2 :: rest) v) as [child|] eqn:Hchild;
      cbn [bind]; [|discriminate].
    intro Hw.
    change (V1.get_loop r (key :: k2 :: rest))
      with (if negb (is_object r) then Ret VUndef
            else next <- prop_read r key ;; V1.get_loop next (k2 :: rest)).
    rewrite (proj2 (prop_write_object _ _ _ _ Hw)).
    rewrite (prop_read_write _ _ _ _ Hw). cbn [negb bind].
    apply (IH _ _ _ ltac:(discriminate) Hchild).
Qed.

(** X27.  In [index.js], whenever [_setValueByPath] returns, for a non-empty
    path whose keys name no member of the prototype chain ([__proto__],
    [length] and the like), [_getValueByPath] reads the value written back
    from the tree returned, whatever the tree and the value. *)
Theorem V1_write_then_read (tree : value) (p : string) (v tree' : value) :
  p <> "" ->
  own_keys p = true ->
  V1Update._setValueByPath tree p v = Ret tree' ->
  V1._getValueByPath tree' p = Ret v.
Proof.
  intros Hp _. unfold V1Update._setValueByPath, V1._getValueByPath.
  apply String.eqb_neq in Hp. rewrite Hp.
  destruct (V1._parsePath p) as [|key keys] eqn:Hkeys;
    [now apply V1_parsePath_not_nil in Hkeys|].
  apply V1_set_loop_read. discriminate.
Qed.

Lemma V1_write_then_read_witness :
  V1._getValueByPath
    (VObj [("user", VObj [("tags", VObj [("0", VStr "x")])])])
    "user.tags[0]"
  = Ret (VStr "x").
Proof.
  apply (V1_write_then_read (VObj [("user", VNum 1)]) "user.tags[0]"
           (VStr "x")); [discriminate|reflexivity|reflexivity].
Defined.

Lemma prop_read_delete (recv r : value) (k : string) :
  prop_delete recv k = Ret r -> is_object r = true ->
  prop_read r k = Ret VUndef.
Proof.
  destruct recv; simpl; try discriminate;
    try (intros H Hobj;
         repeat match type of H with
                | context [match ?x with _ => _ end] => destruct x
                end;
         inversion H; subst; discriminate).
  - destruct (array_index k) as [i|] eqn:Hi; intro H; inversion H; subst;
      intros _; simpl; rewrite Hi.
    + f_equal. clear. revert i.
      induction elems as [|e es IH]; intros [|i]; simpl; auto.
    + now rewrite lookup_filter_out, String.eqb_refl.
  - intro H; inversion H; subst. intros _. simpl.
    now rewrite lookup_filter_out, String.eqb_refl.
Qed.

Lemma V1_get_loop_not_object (cur : value) (keys : list string) :
  keys <> [] -> is_object cur = false -> V1.get_loop cur keys = Ret VUndef.
Proof. destruct keys; [congruence|]. intros _ H. simpl. now rewrite H. Qed.

Lemma V1_delete_loop_read (keys : list string) :
  forall cur r, keys <> [] -> V1Update.delete_loop cur keys = Ret r ->
                V1.get_loop r keys = Ret VUndef.
Proof.
  induction keys as [|key keys' IH]; [congruence|].
  intros cur r _. destruct keys' as [|k2 rest].
  - cbn [V1Update.delete_loop].
    destruct (prop_read cur key) as [x|] eqn:Hread; cbn [bind];
      [|discriminate].
    destruct (is_object r) eqn:Hobj;
      [|intros _; now apply V1_get_loop_not_object].
    destruct (is_undefined x) eqn:Hx.
    + intro H; inversion H; subst r. cbn [V1.get_loop]. rewrite Hobj, Hread.
      destruct x; try discriminate. reflexivity.
    + intro Hd. cbn [V1.get_loop]. rewrite Hobj.
      now rewrite (prop_read_delete _ _ _ Hd Hobj).
  - change (V1Update.delete_loop cur (key :: k2 :: rest))
      with (c <- prop_read cur key ;;
            if is_object c then
              child <- V1Update.delete_loop c (k2 :: rest) ;;
              prop_write cur key child
            else Ret cur).
    change (V1.get_loop r (key :: k2 :: rest))
      with (if negb (is_object r) then Ret VUndef
            else next <- prop_read r key ;; V1.get_loop next (k2 :: rest)).
    destruct (prop_read cur key) as [c|] eqn:Hread; cbn [bind];
      [|discriminate].
    destruct (is_object c) eqn:Hc.
    + destruct (V1Update.delete_loop c (k2 :: rest)) as [child|] eqn:Hchild;
        cbn [bind]; [|discriminate].
      intro Hw. rewrite (proj2 (prop_write_object _ _ _ _ Hw)).
      rewrite (prop_read_write _ _ _ _ Hw). cbn [negb bind].
      apply (IH _ _ ltac:(discriminate) Hchild).
    + intro H; inversion H; subst r.
      destruct (is_object cur); [|reflexivity]. cbn [negb].
      rewrite Hread. cbn [bind].
      apply V1_get_loop_not_object; [discriminate|exact Hc].
Qed.

(** X28.  In [index.js], whenever [_deleteValueByPath] returns, for a
    non-empty path whose keys name no member of the prototype chain,
    [_getValueByPath] gives [undefined] at that path in the tree
    returned. *)
Theorem V1_delete_then_read (tree : value) (p : string) (tree' : value) :
  p <> "" ->
  own_keys p = true ->
  V1Update._deleteValueByPath tree p = Ret tree' ->
  V1._getValueByPath tree' p = Ret VUndef.
Proof.
  intros Hp _. unfold V1Update._deleteValueByPath, V1._getValueByPath.
  apply String.eqb_neq in Hp. rewrite Hp.
  apply V1_delete_loop_read, V1_parsePath_not_nil.
Qed.

Lemma V1_delete_then_read_witness :
  V1._getValueByPath (VObj [("user", VObj [("age", VNum 3)])]) "user.name"
  = Ret VUndef.
Proof.
  apply (V1_delete_then_read
           (VObj [("user", VObj [("name", VStr "A"); ("age", VNum 3)])])
           "user.name"); [discriminate|reflexivity|reflexivity].
Defined.

Lemma upsert_same (ps : props) (k : string) :
  is_object (lookup ps k) = true -> upsert ps k (lookup ps k) = ps.
Proof.
  induction ps as [|[k0 v0] ps IH]; simpl; [discriminate|].
  destruct (String.eqb k0 k) eqn:E.
  - apply String.eqb_eq in E. now subst.
  - intro H. now rewrite IH.
Qed.

Lemma replace_nth_same (es : list value) (i : nat) :
  replace_nth i es (nth i es VUndef) = es.
Proof.
  revert i. induction es as [|e es IH]; intros [|i]; simpl; try reflexivity.
  now rewrite IH.
Qed.

Lemma nth_object_in_range (es : list value) (i : nat) :
  is_object (nth i es VUndef) = true -> i < length es.
Proof.
  intro H. destruct (Nat.lt_ge_cases i (length es)) as [Hlt|Hge]; [exact Hlt|].
  rewrite nth_overflow in H by assumption. discriminate.
Qed.

(** storing back the container that was read changes nothing *)
Lemma prop_write_same (cur c cur' : value) (k : string) :
  prop_read cur k = Ret c -> is_object c = true ->
  prop_write cur k c = Ret cur' -> cur' = cur.
Proof.
  destruct cur; simpl; try discriminate.
  - destruct (array_index k) as [i|]; intros Hr Hc Hw;
      inversion Hr; subst c; inversion Hw; subst cur'; f_equal.
    + unfold store_elem, pad.
      replace (S i - length elems) with 0
        by (apply nth_object_in_range in Hc; lia).
      simpl. rewrite app_nil_r. apply replace_nth_same.
    + now apply upsert_same.
  - intros Hr Hc Hw. inversion Hr; subst c; inversion Hw; subst cur'.
    f_equal. now apply upsert_same.
Qed.

Lemma prop_read_object_receiver (cur c : value) (k : string) :
  prop_read cur k = Ret c -> is_object c = true -> is_object cur = true.
Proof.
  destruct cur; simpl; try discriminate; try reflexivity.
  - intros H Hc. inversion H; subst. discriminate.
  - intros H Hc. inversion H; subst. discriminate.
  - destruct (array_index k) as [i|]; intros H Hc; inversion H; subst;
      [|discriminate].
    clear H. revert i Hc. induction s as [|a s IH]; intros [|i]; simpl;
      try discriminate. apply IH.
Qed.

Lemma V1_delete_loop_absent (keys : list string) :
  forall cur r, V1.get_loop cur keys = Ret VUndef ->
                V1Update.delete_loop cur keys = Ret r -> r = cur.
Proof.
  induction keys as [|key keys' IH]; intros cur r Hget.
  - simpl. congruence.
  - destruct keys' as [|k2 rest].
    + cbn [V1Update.delete_loop].
      destruct (prop_read cur key) as [x|] eqn:Hread; cbn [bind];
        [|discriminate].
      destruct (is_undefined x) eqn:Hx; [congruence|].
      cbn [V1.get_loop] in Hget.
      destruct (is_object cur) eqn:Hobj; cbn [negb] in Hget.
      * rewrite Hread in Hget. cbn in Hget. inversion Hget. subst x.
        discriminate.
      * destruct cur; simpl in *; try discriminate; try congruence.
        destruct (array_index key) as [i|]; [|congruence].
        destruct (i <? String.length s)%nat; [discriminate|congruence].
    + change (V1Update.delete_loop cur (key :: k2 :: rest))
        with (c <- prop_read cur key ;;
              if is_object c then
                child <- V1Update.delete_loop c (k2 :: rest) ;;
                prop_write cur key child
              else Ret cur).
      destruct (prop_read cur key) as [c|] eqn:Hread; cbn [bind];
        [|discriminate].
      destruct (is_object c) eqn:Hc; [|congruence].
      destruct (V1Update.delete_loop c (k2 :: rest)) as [child|] eqn:Hchild;
        cbn [bind]; [|discriminate].
      intro Hw.
      change (V1.get_loop cur (key :: k2 :: rest))
        with (if negb (is_object cur) then Ret VUndef
              else next <- prop_read cur key ;; V1.get_loop next (k2 :: rest))
        in Hget.
      rewrite (prop_read_object_receiver _ _ _ Hread Hc), Hread in Hget.
      cbn [negb bind] in Hget.
      rewrite (IH c child Hget Hchild) in Hw.
      apply (prop_write_same _ _ _ _ Hread Hc Hw).
Qed.

(** X29.  In [index.js] deleting what is not there changes nothing: when
    [_getValueByPath] gives [undefined] at a path of a tree and
    [_deleteValueByPath] returns, the tree it returns is the tree it was
    given. *)
Theorem V1_delete_absent (tree : value) (p : string) (tree' : value) :
  V1._getValueByPath tree p = Ret VUndef ->
  V1Update._deleteValueByPath tree p = Ret tree' ->
  tree' = tree.
Proof.
  unfold V1._getValueByPath, V1Update._deleteValueByPath.
  destruct (String.eqb p "") eqn:Hp.
  - intro H. inversion H. subst tree. apply String.eqb_eq in Hp. subst p.
    discriminate.
  - apply V1_delete_loop_absent.
Qed.

Lemma V1_delete_absent_witness :
  VObj [("user", VObj [("age", VNum 3)])]
  = VObj [("user", VObj [("age", VNum 3)])].
Proof.
  apply (V1_delete_absent (VObj [("user", VObj [("age", VNum 3)])])
           "user.name.first"); reflexivity.
Defined.

(** ** [has] *)

(** X30.  [has] answers [true] for a key just written, whatever the value,
    [null] and the other falsy values included: under the conditions of the
    read after [set], the value read back is not [undefined]. *)
Theorem has_after_set (size : value -> Z) (this : FastLS) (w : world)
  (k : string) (v : value) (ps : props) :
  useAsync this = true ->
  caseSen this = true -> quota this = None -> folderQuotas this = [] ->
  object_member (dbName this) = false ->
  dbName this <> reserved_name -> ~ In reserved_name (map fst w) ->
  plain_key k = true -> object_member k = false -> k <> reserved_name ->
  _getDatabase this w = VObj ps -> plain_json (VObj ps) = true ->
  plain_json v = true -> is_shortcut v = false ->
  let after := set size this w (VStr k) v in
  forall fuel, has (S fuel) this (snd after) (VStr k) = Some (true, snd after).
Proof.
  intros _ Hcs Hq Hfq _ Hname Hfree Hk _ Hkr Hdb Hplain Hv Hshort after fuel.
  unfold has, after.
  rewrite (get_after_set size this w k v ps Hcs Hq Hfq Hname Hfree Hk Hkr
             Hdb Hplain Hv Hshort fuel).
  destruct v; try reflexivity. discriminate.
Qed.

Lemma has_after_set_witness :
  has 1 main_db (snd (set jsonSize main_db small_world (VStr "n") VNull))
    (VStr "n")
  = Some (true, snd (set jsonSize main_db small_world (VStr "n") VNull)).
Proof.
  apply (has_after_set jsonSize main_db small_world "n" VNull
           [("k", VStr "abcdef")]); try reflexivity; try discriminate.
  simpl. intuition discriminate.
Defined.
